(** * logentries: a shallow embedding of the logger and its transport

    The development follows the two source files:
    - [lib/LogEntriesLogger.js]: level registry, threshold filter and the
      value formatter ([Module Logger]);
    - the transport ([LogentriesTransport]): pending queue, connection phase,
      closing phase and the reactions to channel events ([Module Transport]).

    Conventions of the embedding:
    - a JavaScript object used as a map is a finite map over its own keys,
      read through [Object.prototype] where the code reads it with
      [object[name]]; strings are byte strings (UTF-8);
    - closure variables become the fields of a state record, and a method
      becomes a function from state to state; a method that can throw also
      returns the exception;
    - every call into a collaborator (the transport for the logger, the
      socket and the event emitter for the transport) is recorded in a
      trace of events; what a call of the socket raises is given by the
      environment, as a function of everything that happened before;
    - listeners of the event emitter return normally and do not call back,
      and the emitter has an ['error'] listener (the logger's constructor
      registers one); a level named [emit] replaces the emitter's method
      and is modelled, a level named after an internal field of the
      emitter is not;
    - [_.forEach] is lodash 3's, which the constructor's use of its third
      argument asks for. *)

From Stdlib Require Import ZArith Lia Ascii String.
From stdpp Require Import gmap strings list pretty.

Set Warnings "-register-all".

Open Scope string_scope.
Open Scope list_scope.

(** ** JavaScript values *)

(** [new Error(message)]. An error is known by its message. *)
Inductive error := Error (message : string).

Module Js.

(** How an evaluation ends: with a value, or with a thrown exception. *)
Inductive completion (A : Type) :=
| Normal (a : A)
| Abrupt (e : error).
Arguments Normal {A}.
Arguments Abrupt {A}.

(** Numbers. [Int z] is an integer-valued number whose magnitude is at most
    [2^53 - 1]; its text is its decimal notation. [Real text] is any other
    number ([3.4], [NaN], [Infinity], [1e+21]) with the text that the
    runtime's number-to-string conversion gives it. *)
Inductive number :=
| Int (z : Z)
| Real (text : string).

(** Primitive values. *)
Inductive prim :=
| Undefined
| Null
| Bool (b : bool)
| Number (n : number)
| Str (s : string).

(** Values handed to [log]. A [Date] carries what [toISOString()] returns
    for it, and [None] when it is an invalid date ([new Date(NaN)]), for
    which [toISOString()] throws; an [Array] carries its items in index
    order; an [Object] is a plain object with its own enumerable properties,
    under distinct names, in the order of [Object.keys]. *)
Inductive value :=
| Prim (p : prim)
| Date (iso : option string)
| Array (items : list value)
| Object (props : list (string * value)).

(** ['' + p] for a primitive [p]. *)
Definition toString (p : prim) : string :=
  match p with
  | Undefined => "undefined"
  | Null => "null"
  | Bool true => "true"
  | Bool false => "false"
  | Number (Int z) => pretty z
  | Number (Real text) => text
  | Str s => s
  end.

(** [date.toISOString()]: a [RangeError] for an invalid date. *)
Definition toISOString (iso : option string) : completion string :=
  match iso with
  | Some text => Normal text
  | None => Abrupt (Error "Invalid time value")
  end.

(** The text of an error object where a string is expected, as in
    [Array.prototype.join]. *)
Definition error_text (e : error) : string :=
  match e with
  | Error EmptyString => "Error"
  | Error message => "Error: " +:+ message
  end.

(** The exception of the runtime when the call stack is used up. *)
Definition stack_overflow : error := Error "Maximum call stack size exceeded".

(** [object[name]] among the own properties [props]. *)
Fixpoint property {A : Type} (name : string) (props : list (string * A)) : option A :=
  match props with
  | [] => None
  | (key, value) :: props' => if String.eqb key name then Some value else property name props'
  end.

(** What a plain object inherits from [Object.prototype]: the name of each
    member with the text the member has where a primitive is expected (the
    source text of a builtin function; for [__proto__] the text of the
    prototype object itself). *)
Definition builtin (name : string) : string := "function " +:+ name +:+ "() { [native code] }".

Definition object_prototype : list (string * string) :=
  [("constructor", builtin "Object");
   ("toString", builtin "toString");
   ("toLocaleString", builtin "toLocaleString");
   ("valueOf", builtin "valueOf");
   ("hasOwnProperty", builtin "hasOwnProperty");
   ("isPrototypeOf", builtin "isPrototypeOf");
   ("propertyIsEnumerable", builtin "propertyIsEnumerable");
   ("__defineGetter__", builtin "__defineGetter__");
   ("__defineSetter__", builtin "__defineSetter__");
   ("__lookupGetter__", builtin "__lookupGetter__");
   ("__lookupSetter__", builtin "__lookupSetter__");
   ("__proto__", "[object Object]")].

Definition inherited (name : string) : option string := property name object_prototype.

Definition MAX_SAFE_INTEGER : Z := 9007199254740991.

(** lodash's [isLength]: a number that is a non-negative integer up to
    [MAX_SAFE_INTEGER] (negative zero counts as [0]). *)
Definition isLength (z : Z) : bool := (0 <=? z)%Z && (z <=? MAX_SAFE_INTEGER)%Z.

(** The [length] that makes lodash take an object for a list: an own
    property [length] holding a number accepted by [isLength]. *)
Definition array_length (props : list (string * value)) : option nat :=
  match property "length" props with
  | Some (Prim (Number (Int z))) => if isLength z then Some (Z.to_nat z) else None
  | _ => None
  end.

(** U+2028 LINE SEPARATOR, as its three UTF-8 bytes E2 80 A8. *)
Definition line_separator : string :=
  String "226"%char (String "128"%char (String "168"%char EmptyString)).

(** [s.replace(/\n/g, '\u2028')]. *)
Fixpoint replace_newlines (s : string) : string :=
  match s with
  | EmptyString => EmptyString
  | String c rest =>
      if Ascii.eqb c "010"%char
      then line_separator +:+ replace_newlines rest
      else String c (replace_newlines rest)
  end.

(** [_.forEach(data, callback)] with a callback that appends to [result].
    The items of an array are visited with their indices as keys. An object
    with a [length] accepted by [isLength] is visited like an array: for each
    index below the length, the property under that index, or [undefined]
    when there is none. The properties of any other object are visited with
    their names. A date or a primitive has nothing to visit.

    [missing key] is what the callback appends for [undefined] under [key]:
    the callers below give [callback (Prim Undefined) key], written apart so
    that their recursion stays structural. *)
Definition forEach (callback : value -> string -> string) (missing : string -> string)
    (data : value) : string :=
  match data with
  | Array items =>
      (fix each (index : nat) (items : list value) : string :=
         match items with
         | [] => ""
         | value :: items' => callback value (pretty index) +:+ each (S index) items'
         end) 0%nat items
  | Object props =>
      match array_length props with
      | Some length =>
          (fix each (count index : nat) : string :=
             match count with
             | O => ""
             | S count' =>
                 (fix at_index (own : list (string * value)) : string :=
                    match own with
                    | [] => missing (pretty index)
                    | (key, value) :: own' =>
                        if String.eqb key (pretty index)
                        then callback value (pretty index)
                        else at_index own'
                    end) props
                 +:+ each count' (S index)
             end) length 0%nat
      | None =>
          (fix each (props : list (string * value)) : string :=
             match props with
             | [] => ""
             | (key, value) :: props' => callback value key +:+ each props'
             end) props
      end
  | Date _ | Prim _ => ""
  end.

(** The text holds a newline character. *)
Fixpoint has_newline (s : string) : bool :=
  match s with
  | EmptyString => false
  | String c rest => Ascii.eqb c "010"%char || has_newline rest
  end.

End Js.

Import Js.

(** ** The logger: [lib/LogEntriesLogger.js] *)

Module Logger.

(** *** Options *)

(** [opts.timestamp]: falsy, a function, or any other truthy value. *)
Inductive timestamp_option := TimestampOff | TimestampClock | TimestampFunction.

(** The options as the caller passes them: an absent property is [None]. *)
Record user_options := {
  u_levels : option (gmap string Z);
  u_flatten : option bool;
  u_timestamp : option timestamp_option;
}.

(** The options after [_.defaults] and [_.omit]. [levels] holds the own
    properties of [opts.levels], each an integer severity. *)
Record options := {
  levels : gmap string Z;
  opt_flatten : bool;
  timestamp : timestamp_option;
}.

Definition default_levels : gmap string Z :=
  list_to_map
    [("debug", 0); ("info", 1); ("notice", 2); ("warning", 3);
     ("err", 4); ("crit", 5); ("alert", 6); ("emerg", 7)]%Z.

Definition reserved : list string := ["log"; "end"; "level"; "levels"; "on"; "once"].

(** [_.omit(levels, reserved)]. *)
Definition omit (names : list string) (m : gmap string Z) : gmap string Z :=
  filter (fun kv => kv.1 ∉ names) m.

(** The first lines of the constructor: defaults for what the caller left
    out, then the reserved method names are filtered from the registry. *)
Definition configure (u : user_options) : options :=
  {| levels := omit reserved (default default_levels (u_levels u));
     opt_flatten := default true (u_flatten u);
     timestamp := default TimestampClock (u_timestamp u) |}.

(** *** Reading the registry *)

(** What [opts.levels[name]] can be: the severity of an own property, or a
    member inherited from [Object.prototype], known by its text. *)
Inductive level_value :=
| Severity (s : Z)
| Inherited (text : string).

(** [opts.levels[name]]: the own property first, then the prototype; [None]
    is [undefined]. *)
Definition lookup (opts : options) (name : string) : option level_value :=
  match levels opts !! name with
  | Some s => Some (Severity s)
  | None => Inherited <$> inherited name
  end.

(** [a <= b] for two such values. Two numbers are compared as numbers. An
    inherited member is converted to its text: two texts are compared as
    strings ([a <= b] is the negation of [b < a]), and a text against a
    number is converted to a number, which gives [NaN] for the texts of
    [object_prototype], so the comparison is false. *)
Definition le (a b : level_value) : bool :=
  match a, b with
  | Severity x, Severity y => (x <=? y)%Z
  | Inherited s, Inherited t => negb (String.ltb t s)
  | _, _ => false
  end.

(** The constructor's last statement, [_.forEach(opts.levels, ...)], assigns
    [this[levelName] = _.partial(this.log, levelName)] for every level: a
    level named [emit] replaces the emitter's [emit] method of the logger.
    A registry with a [length] accepted by [isLength] is visited by index
    instead, and then no named method is assigned. *)
Definition levels_length (opts : options) : option nat :=
  match levels opts !! "length" with
  | Some s => if isLength s then Some (Z.to_nat s) else None
  | None => None
  end.

Definition emit_overridden (opts : options) : bool :=
  match levels opts !! "emit", levels_length opts with
  | Some _, None => true
  | _, _ => false
  end.

(** *** The transport seen from the logger *)

(** [opts.transport || new LogEntriesTransport(opts, this)]: any object with
    a [consume] and an [end] method. A method returns the transport's next
    state and the exception it raised, if any. The fields of an entry are
    given by the texts they have once joined to a line. *)
Class Transport (T : Type) := {
  consume : list string -> T -> T * option error;
  transport_end : T -> T * option error;
}.

(** What a call of the logger does to the outside: error notifications and
    calls of the transport. *)
Inductive event :=
| EmitError (e : error)
| Consume (args : list string)
| TransportEnd.

(** The closure variables of one logger, with the trace of its events. *)
Record logger (T : Type) := Build_logger {
  currentLevel : level_value;
  currentLevelName : option string;
  transport : T;
  trace : list event;
}.
Arguments Build_logger {T}.
Arguments currentLevel {T}.
Arguments currentLevelName {T}.
Arguments transport {T}.
Arguments trace {T}.

(** What the runtime supplies during one call of [log]: the wall clock and,
    for a timestamp function, what a call of it does: it throws
    ([TsThrows]) or returns a date ([TsDate], with its ISO text, [None] for
    an invalid date), a number ([TsNumber], with the ISO text of
    [new Date(t)], [None] when that date is invalid) or anything else
    ([TsOther], with the text of ['' + t]). *)
Inductive timestamp_result :=
| TsDate (iso : option string)
| TsNumber (iso : option string)
| TsOther (text : string)
| TsThrows (e : error).

Record runtime := {
  now : string;
  provided : timestamp_result;
}.

(** *** Private functions *)

(** [flatten(data, prefix)]. The test [_.isObject(value) || _.isArray(value)]
    fails exactly on primitives. *)
Fixpoint flatten (data : value) (prefix : string) {struct data} : string :=
  forEach
    (fun value key =>
       match value with
       | Prim p => prefix +:+ key +:+ "=" +:+ toString p +:+ " "
       | _ => flatten value (prefix +:+ key +:+ ".")
       end)
    (fun key => prefix +:+ key +:+ "=" +:+ toString Undefined +:+ " ")
    data.

Definition dateToTimestampString (iso : option string) : completion string :=
  toISOString iso.

(** [determineTimestampString(opts)], for a truthy [opts.timestamp]. *)
Definition determineTimestampString (opts : options) (rt : runtime) : completion string :=
  match timestamp opts with
  | TimestampFunction =>
      match provided rt with
      | TsThrows e => Abrupt e
      | TsDate iso => dateToTimestampString iso
      | TsNumber iso => dateToTimestampString iso
      | TsOther text => Normal text
      end
  | _ => dateToTimestampString (Some (now rt))
  end.

Section LogEntriesLogger.

Context {T : Type} `{Transport T}.

(** [JSON.stringify], a builtin of the runtime, on arrays and objects. *)
Variable JSON_stringify : value -> string.

(** How many calls of [log] from inside [log] the call stack of the runtime
    still allows. *)
Variable stack : nat.

Variable opts : options.

(** The state a constructor call leaves. *)
Definition create (t : T) : logger T :=
  {| currentLevel := Severity (-1); currentLevelName := None; transport := t; trace := [] |}.

(** [EventEmitter.prototype.emit('error', e)]: the listeners are notified. *)
Definition notify (e : error) (lg : logger T) : logger T :=
  {| currentLevel := currentLevel lg;
     currentLevelName := currentLevelName lg;
     transport := transport lg;
     trace := trace lg ++ [EmitError e] |}.

(** [currentLevel <= levelValue], where [levelValue] is [undefined] for a
    name that [opts.levels] neither has nor inherits: the comparison is then
    false. *)
Definition level_passes (current : level_value) (levelValue : option level_value) : bool :=
  match levelValue with
  | Some v => le current v
  | None => false
  end.

(** The text of [args[1]] after the conversions of [log]. *)
Definition convert (data : value) : completion string :=
  match
    match data with
    | Date iso => toISOString iso
    | Array _ | Object _ =>
        Normal (if opt_flatten opts then flatten data "" else JSON_stringify data)
    | Prim p => Normal (toString p)
    end
  with
  | Normal text => Normal (replace_newlines text)
  | Abrupt e => Abrupt e
  end.

(** The array handed to the transport: [args] after the conversion of
    [args[1]] and with the timestamp in front. [more] are the arguments of
    [log] after the second; they stay as they are. *)
Definition entry (argLevel : string) (data : value) (more : list string) (rt : runtime) :
    completion (list string) :=
  match convert data with
  | Abrupt e => Abrupt e
  | Normal text =>
      match timestamp opts with
      | TimestampOff => Normal (argLevel :: text :: more)
      | _ =>
          match determineTimestampString opts rt with
          | Abrupt e => Abrupt e
          | Normal time => Normal (time :: argLevel :: text :: more)
          end
      end
  end.

(** The body of [this.log], with [this.emit('error', e)] as [emit]. *)
Definition log_body (emit : error -> logger T -> completion unit * logger T)
    (argLevel : string) (data : value) (more : list string) (rt : runtime)
    (lg : logger T) : completion unit * logger T :=
  let '(emitted, lg) :=
    match lookup opts argLevel with
    | None => emit (Error ("Unknown log level: " +:+ argLevel)) lg
    | Some _ => (Normal tt, lg)
    end in
  match emitted with
  | Abrupt e => (Abrupt e, lg)
  | Normal _ =>
      let levelValue := lookup opts argLevel in
      if level_passes (currentLevel lg) levelValue then
        match entry argLevel data more rt with
        | Abrupt e => (Abrupt e, lg)
        | Normal args =>
            let '(t, thrown) := consume args (transport lg) in
            let lg :=
              {| currentLevel := currentLevel lg;
                 currentLevelName := currentLevelName lg;
                 transport := t;
                 trace := trace lg ++ [Consume args] |} in
            match thrown with
            | Some err => emit err lg
            | None => (Normal tt, lg)
            end
        end
      else (Normal tt, lg)
  end.

(** [this.log(argLevel, data, ...more)] at nesting depth [nesting], with
    [stack] further nested calls allowed. [this.emit] is the emitter's
    method, unless a level named [emit] has replaced it by
    [_.partial(this.log, 'emit')]: then [this.emit('error', e)] is the call
    [this.log('emit', 'error', e)]. [rt] gives what the runtime supplies to
    the call at each nesting depth. *)
Fixpoint log_nested (stack nesting : nat) (argLevel : string) (data : value)
    (more : list string) (rt : nat -> runtime) (lg : logger T) {struct stack} :
    completion unit * logger T :=
  log_body
    (fun e lg =>
       if emit_overridden opts then
         match stack with
         | O => (Abrupt stack_overflow, lg)
         | S stack' =>
             log_nested stack' (S nesting) "emit" (Prim (Str "error")) [error_text e] rt lg
         end
       else (Normal tt, notify e lg))
    argLevel data more (rt nesting) lg.

(** [this.emit('error', e)] in a method running at depth [nesting]. *)
Definition emit (stack nesting : nat) (rt : nat -> runtime) (e : error) (lg : logger T) :
    completion unit * logger T :=
  if emit_overridden opts then
    match stack with
    | O => (Abrupt stack_overflow, lg)
    | S stack' =>
        log_nested stack' (S nesting) "emit" (Prim (Str "error")) [error_text e] rt lg
    end
  else (Normal tt, notify e lg).

(** [this.log(argLevel, data, ...more)], called from outside. *)
Definition log (argLevel : string) (data : value) (more : list string) (rt : nat -> runtime)
    (lg : logger T) : completion unit * logger T :=
  log_nested stack 0 argLevel data more rt lg.

(** [this.end()]. *)
Definition logger_end (rt : nat -> runtime) (lg : logger T) : completion unit * logger T :=
  let '(t, thrown) := transport_end (transport lg) in
  let lg :=
    {| currentLevel := currentLevel lg;
       currentLevelName := currentLevelName lg;
       transport := t;
       trace := trace lg ++ [TransportEnd] |} in
  match thrown with
  | Some err => emit stack 0 rt err lg
  | None => (Normal tt, lg)
  end.

(** A call of [level] returns a name (or [undefined]) or throws. *)
Inductive level_result :=
| Returned (name : option string)
| Thrown (e : error).

(** [if (newLevelName)]: the argument is there and is not the empty string. *)
Definition truthy (newLevelName : option string) : option string :=
  match newLevelName with
  | Some EmptyString => None
  | other => other
  end.

(** [this.level(newLevelName)]; [level None] is the call without argument. *)
Definition level (newLevelName : option string) (lg : logger T) : level_result * logger T :=
  match truthy newLevelName with
  | Some name =>
      match lookup opts name with
      | Some v =>
          (Returned (Some name),
           {| currentLevel := v;
              currentLevelName := Some name;
              transport := transport lg;
              trace := trace lg |})
      | None => (Thrown (Error ("Unknown log level: " +:+ name)), lg)
      end
  | None => (Returned (currentLevelName lg), lg)
  end.

(** *** Runs *)

(** One call of the public interface. *)
Inductive call :=
| CallLog (argLevel : string) (data : value) (more : list string) (rt : nat -> runtime)
| CallLevel (newLevelName : option string)
| CallEnd (rt : nat -> runtime).

(** The logger after a call, whether the call returned or threw. *)
Definition step (lg : logger T) (c : call) : logger T :=
  match c with
  | CallLog argLevel data more rt => (log argLevel data more rt lg).2
  | CallLevel newLevelName => (level newLevelName lg).2
  | CallEnd rt => (logger_end rt lg).2
  end.

Definition run (calls : list call) (lg : logger T) : logger T :=
  foldl step lg calls.

(** *** Vocabulary of the statements *)

(** The threshold a call sets: a call [level(name)] that does not throw
    sets what [opts.levels[name]] holds. *)
Definition sets_threshold (c : call) : option level_value :=
  match c with
  | CallLevel (Some name) => if decide (name = "") then None else lookup opts name
  | _ => None
  end.

(** The active threshold after [calls]: what the last successful
    [level(name)] set; [None] when there was none. *)
Definition active_threshold (calls : list call) : option level_value :=
  last (omap sets_threshold calls).

(** The entries handed to [transport.consume], in the order of the calls. *)
Definition handed (tr : list event) : list (list string) :=
  omap (fun ev => match ev with Consume args => Some args | _ => None end) tr.

(** The error notifications of a trace. *)
Definition notified (tr : list event) : list error :=
  omap (fun ev => match ev with EmitError e => Some e | _ => None end) tr.

(** [lg'] has the threshold of [lg], and its trace continues the trace of
    [lg]. *)
Definition keeps (lg lg' : logger T) : Prop :=
  currentLevel lg' = currentLevel lg
  /\ currentLevelName lg' = currentLevelName lg
  /\ exists evs, trace lg' = trace lg ++ evs.

End LogEntriesLogger.

(** The items of an array from index [n] on, as properties. *)
Definition indexed (n : nat) (items : list value) : list (string * value) :=
  imap (fun i v => (pretty (n + i)%nat, v)) items.


(** The primitive values inside a structure, each with the path of keys
    that leads to it, joined by dots, in the order [_.forEach] visits them:
    [visit] is [forEach] for a callback that collects a list. *)
Definition visit {A : Type} (callback : value -> string -> list A) (missing : string -> list A)
    (data : value) : list A :=
  match data with
  | Array items =>
      (fix each (index : nat) (items : list value) : list A :=
         match items with
         | [] => []
         | value :: items' => callback value (pretty index) ++ each (S index) items'
         end) 0%nat items
  | Object props =>
      match array_length props with
      | Some length =>
          (fix each (count index : nat) : list A :=
             match count with
             | O => []
             | S count' =>
                 (fix at_index (own : list (string * value)) : list A :=
                    match own with
                    | [] => missing (pretty index)
                    | (key, value) :: own' =>
                        if String.eqb key (pretty index)
                        then callback value (pretty index)
                        else at_index own'
                    end) props
                 ++ each count' (S index)
             end) length 0%nat
      | None =>
          (fix each (props : list (string * value)) : list A :=
             match props with
             | [] => []
             | (key, value) :: props' => callback value key ++ each props'
             end) props
      end
  | Date _ | Prim _ => []
  end.

Definition under (key : string) (leaf : string * prim) : string * prim :=
  (key +:+ "." +:+ leaf.1, leaf.2).

Fixpoint leaves (data : value) {struct data} : list (string * prim) :=
  visit
    (fun value key =>
       match value with
       | Prim p => [(key, p)]
       | _ => map (under key) (leaves value)
       end)
    (fun key => [(key, Undefined)])
    data.

(** One pair of the flattened text. *)
Definition pair_text (prefix : string) (leaf : string * prim) : string :=
  prefix +:+ leaf.1 +:+ "=" +:+ toString leaf.2 +:+ " ".

(** The texts of [pairs], one after the other. *)
Definition pairs_text (prefix : string) (pairs : list (string * prim)) : string :=
  foldr (fun leaf text => pair_text prefix leaf +:+ text) "" pairs.

(** The [StubTransport] of the test suite: it keeps what it is given. *)
#[export] Instance StubTransport : Transport (list (list string)) := {|
  consume item queue := (app queue [item], None);
  transport_end queue := (queue, None);
|}.

(** A transport that refuses every entry. *)
Definition refusing (e : error) : Transport unit := {|
  consume _ t := (t, Some e);
  transport_end t := (t, None);
|}.

(** The options of a logger built without any. *)
Definition default_options : options :=
  configure {| u_levels := None; u_flatten := None; u_timestamp := None |}.

(** The fixtures of the test suite: a logger on the stub transport whose
    timestamp function returns one fixed ISO text. *)
Definition FIX_TIMESTAMP_ISO_STRING : string := "2015-05-17T15:26:17.231Z".

Definition test_options : options :=
  configure {| u_levels := None; u_flatten := None; u_timestamp := Some TimestampFunction |}.

Definition test_runtime : nat -> runtime :=
  fun _ => {| now := "1970-01-01T00:00:00.000Z"; provided := TsOther FIX_TIMESTAMP_ISO_STRING |}.

(** A registry with a level named [emit]. *)
Definition emit_options : options :=
  configure {| u_levels := Some (list_to_map [("emit", 0); ("info", 1)]%Z);
               u_flatten := None;
               u_timestamp := Some TimestampFunction |}.

Definition createLogger : logger (list (list string)) := create [].

End Logger.

(** ** The transport: [LogentriesTransport] *)

Module Transport.

Inductive CONNECTING_PHASE := CONNECTING | CONNECTED | DISCONNECTED.

Inductive CLOSING_PHASE := CLOSING | CLOSED.

Definition DEFAULT_LE_HOST : string := "api.logentries.com".
Definition DEFAULT_LE_PORT : Z := 10000.
Definition DEFAULT_LE_PORT_SECURE : Z := 20000.

(** The options the transport reads; an absent [host] or [port] is [None]. *)
Record options := {
  token : string;
  usequotes : bool;
  host : option string;
  port : option Z;
  secure : bool;
}.

Definition dquote : string := String "034"%char EmptyString.
Definition newline : string := String "010"%char EmptyString.

(** [createLogLine(item, opts)]. *)
Definition createLogLine (item : list string) (opts : options) : string :=
  let logLine := token opts in
  if usequotes opts
  then logLine +:+ dquote +:+ String.concat (dquote +:+ " " +:+ dquote) item +:+ dquote +:+ newline
  else logLine +:+ String.concat " " item +:+ newline.

(** [opts.host || DEFAULT_LE_HOST]: the empty string is falsy. *)
Definition host_or (h : option string) (d : string) : string :=
  match h with
  | Some EmptyString | None => d
  | Some name => name
  end.

(** [opts.port || default]: zero is falsy. *)
Definition port_or (p : option Z) (d : Z) : Z :=
  match p with
  | Some 0%Z | None => d
  | Some n => n
  end.

(** What the transport does to the outside: notifications on the logger,
    calls on the socket (with what the call raised) and console output. *)
Inductive event :=
| EmitLog (logLine : string)
| EmitError (e : error)
| EmitConnect (host : string) (port : Z) (token : string)
| EmitEnd
| SocketOpen (secure : bool) (port : Z) (host : string)
| SocketWrite (logLine : string) (thrown : option error)
| SocketEnd (thrown : option error)
| ConsoleLog (text : string).

(** The object [tls.connect] or [net.createConnection] returns. *)
Record channel := { ch_secure : bool; ch_port : Z; ch_host : string }.

(** The closure variables of one transport, with the trace of its events.
    [None] is [null]. *)
Record transport := {
  queue : list (list string);
  socket : option channel;
  connectingPhase : option CONNECTING_PHASE;
  closingPhase : option CLOSING_PHASE;
  trace : list event;
}.

Definition initial : transport :=
  {| queue := []; socket := None; connectingPhase := None; closingPhase := None; trace := [] |}.

Definition set_queue (q : list (list string)) (st : transport) : transport :=
  {| queue := q; socket := socket st; connectingPhase := connectingPhase st;
     closingPhase := closingPhase st; trace := trace st |}.

Definition set_socket (s : option channel) (st : transport) : transport :=
  {| queue := queue st; socket := s; connectingPhase := connectingPhase st;
     closingPhase := closingPhase st; trace := trace st |}.

Definition set_connectingPhase (p : CONNECTING_PHASE) (st : transport) : transport :=
  {| queue := queue st; socket := socket st; connectingPhase := Some p;
     closingPhase := closingPhase st; trace := trace st |}.

Definition set_closingPhase (p : CLOSING_PHASE) (st : transport) : transport :=
  {| queue := queue st; socket := socket st; connectingPhase := connectingPhase st;
     closingPhase := Some p; trace := trace st |}.

Definition record (ev : event) (st : transport) : transport :=
  {| queue := queue st; socket := socket st; connectingPhase := connectingPhase st;
     closingPhase := closingPhase st; trace := trace st ++ [ev] |}.

(** What reading a property of [null] raises. *)
Definition null_socket : error := Error "TypeError: Cannot read property of null".

(** What the channel tells the transport: the callbacks of [connect]. The
    secure callback reads [socket.authorized] and [socket.authorizationError]. *)
Inductive channel_event :=
| OnConnect
| OnSecureConnect (authorized : bool) (authorizationError : string)
| OnError (e : error)
| OnClose.

Section LogentriesTransport.

Variable opts : options.

(** The socket is the runtime's: what [socket.write(logLine)] and
    [socket.end()] raise, given everything that happened before the call. *)
Variable write_throws : list event -> string -> option error.
Variable end_throws : list event -> option error.

(** [closeSocket()]. *)
Definition closeSocket (st : transport) : transport :=
  match socket st with
  | Some _ =>
      let thrown := end_throws (trace st) in
      let st := record (SocketEnd thrown) st in
      let st := match thrown with Some e => record (EmitError e) st | None => st end in
      set_socket None st
  | None => st
  end.

(** The [catch] block of [processItemsInQueue]. *)
Definition requeue (e : error) (item : list string) (st : transport) : transport :=
  let st := record (EmitError e) st in
  let st := set_queue (item :: queue st) st in
  let st := closeSocket st in
  set_connectingPhase DISCONNECTED st.

(** The loop of [processItemsInQueue], entered with [pending] the queue. *)
Fixpoint drain (pending : list (list string)) (st : transport) : transport :=
  match pending with
  | [] => st
  | item :: rest =>
      let st := set_queue rest st in
      let logLine := createLogLine item opts in
      let st := record (EmitLog logLine) st in
      match socket st with
      | None => requeue null_socket item st
      | Some _ =>
          let thrown := write_throws (trace st) logLine in
          let st := record (SocketWrite logLine thrown) st in
          match thrown with
          | Some e => requeue e item st
          | None => drain rest st
          end
      end
  end.

(** [processItemsInQueue()]. *)
Definition processItemsInQueue (st : transport) : transport := drain (queue st) st.

(** [handleConnection()]. *)
Definition handleConnection (st : transport) : transport :=
  let st := set_connectingPhase CONNECTED st in
  let st := processItemsInQueue st in
  match closingPhase st with
  | Some _ => set_closingPhase CLOSED (closeSocket st)
  | None => st
  end.

(** [handleClose()]. *)
Definition handleClose (st : transport) : transport :=
  set_connectingPhase DISCONNECTED (closeSocket st).

(** [handleError(e)]. *)
Definition handleError (e : error) (st : transport) : transport :=
  let st := record (EmitError e) st in
  set_connectingPhase DISCONNECTED (closeSocket st).

(** [handleSecureConnection()], with what it reads from the socket. *)
Definition handleSecureConnection (authorized : bool) (authorizationError : string)
    (st : transport) : transport :=
  if negb authorized
  then handleError (Error authorizationError) st
  else handleConnection st.

(** [connect()]. *)
Definition connect (st : transport) : transport :=
  let st := set_connectingPhase CONNECTING st in
  let h := host_or (host opts) DEFAULT_LE_HOST in
  let p := port_or (port opts) (if secure opts then DEFAULT_LE_PORT_SECURE else DEFAULT_LE_PORT) in
  let st := record (EmitConnect h p (token opts)) st in
  let st := set_socket (Some {| ch_secure := secure opts; ch_port := p; ch_host := h |}) st in
  record (SocketOpen (secure opts) p h) st.

(** The callbacks registered by [connect], run on a channel event. The
    secure callback is registered only for a secure channel, and raises when
    [socket] is [null]. *)
Definition react (ev : channel_event) (st : transport) : transport * option error :=
  match ev with
  | OnConnect => (handleConnection st, None)
  | OnError e => (handleError e st, None)
  | OnClose => (handleClose st, None)
  | OnSecureConnect authorized authorizationError =>
      if secure opts then
        match socket st with
        | Some _ => (handleSecureConnection authorized authorizationError st, None)
        | None => (st, Some null_socket)
        end
      else (st, None)
  end.

(** [this.consume(items)]. *)
Definition consume (items : list string) (st : transport) : transport * option error :=
  match closingPhase st with
  | Some _ => (st, Some (Error "Transport is already closed"))
  | None =>
      let st := set_queue (queue st ++ [items]) st in
      match connectingPhase st with
      | Some CONNECTED => (processItemsInQueue st, None)
      | Some CONNECTING => (st, None)
      | _ => (connect st, None)
      end
  end.

(** [this.end()]. *)
Definition transport_end (st : transport) : transport * option error :=
  match socket st with
  | Some _ =>
      let st := set_closingPhase CLOSING st in
      let st :=
        match queue st with
        | _ :: _ =>
            match connectingPhase st with
            | Some CONNECTING =>
                record (ConsoleLog "end while still connecting and data pending") st
            | _ => set_closingPhase CLOSED (closeSocket (processItemsInQueue st))
            end
        | [] => set_closingPhase CLOSED (closeSocket st)
        end in
      (record EmitEnd st, None)
  | None => (st, None)
  end.

(** *** Runs *)

(** One thing that happens to a transport: a call of its interface or an
    event of its channel. *)
Inductive action :=
| CallConsume (items : list string)
| CallEnd
| Channel (ev : channel_event).

Definition step (st : transport) (a : action) : transport :=
  match a with
  | CallConsume items => (consume items st).1
  | CallEnd => (transport_end st).1
  | Channel ev => (react ev st).1
  end.

Definition run (acts : list action) (st : transport) : transport :=
  foldl step st acts.

(** Every state a transport can be in. *)
Definition reachable (st : transport) : Prop :=
  exists acts, st = run acts initial.

(** *** Vocabulary of the statements *)

(** The events of writing [items] one after the other with no failure. *)
Definition written (items : list (list string)) : list event :=
  flat_map (fun item => [EmitLog (createLogLine item opts);
                         SocketWrite (createLogLine item opts) None]) items.

(** No write of [items] fails, when they are written one after the other
    starting with the trace [tr]. *)
Fixpoint all_written (items : list (list string)) (tr : list event) : bool :=
  match items with
  | [] => true
  | item :: rest =>
      let logLine := createLogLine item opts in
      match write_throws (tr ++ [EmitLog logLine]) logLine with
      | None => all_written rest (tr ++ [EmitLog logLine; SocketWrite logLine None])
      | Some _ => false
      end
  end.

(** The events of [closeSocket] on an open channel after the trace [tr]. *)
Definition closing (tr : list event) : list event :=
  match end_throws tr with
  | Some e => [SocketEnd (Some e); EmitError e]
  | None => [SocketEnd None]
  end.

(** The log lines handed to [socket.write], in the order of the calls. *)
Definition write_calls (tr : list event) : list string :=
  omap (fun ev => match ev with SocketWrite logLine _ => Some logLine | _ => None end) tr.

(** The error notifications of a trace. *)
Definition errors (tr : list event) : list error :=
  omap (fun ev => match ev with EmitError e => Some e | _ => None end) tr.

(** The connection attempts of a trace: the hosts of the channels opened. *)
Definition attempts (tr : list event) : list string :=
  omap (fun ev => match ev with SocketOpen _ _ h => Some h | _ => None end) tr.

(** The log lines that [socket.write] took without raising, in the order of
    the calls. *)
Definition sent (tr : list event) : list string :=
  omap (fun ev => match ev with SocketWrite logLine None => Some logLine | _ => None end) tr.

(** The entries that [consume] took, without raising, during the actions
    [acts] made from the state [st]. *)
Fixpoint accepted (acts : list action) (st : transport) : list (list string) :=
  match acts with
  | [] => []
  | a :: acts' =>
      match a, closingPhase st with
      | CallConsume items, None => [items]
      | _, _ => []
      end ++ accepted acts' (step st a)
  end.

(** The host and the port [connect] opens its channel to. *)
Definition target : string * Z :=
  (host_or (host opts) DEFAULT_LE_HOST,
   port_or (port opts) (if secure opts then DEFAULT_LE_PORT_SECURE else DEFAULT_LE_PORT)).

(** The lines sent, followed by the lines of the entries still queued. *)
Definition ledger (st : transport) : list string :=
  sent (trace st) ++ map (fun item => createLogLine item opts) (queue st).

End LogentriesTransport.

(** While connecting, the channel of the attempt is there, unless the
    transport was closed with nothing pending. *)
Definition connecting_has_channel (st : transport) : Prop :=
  connectingPhase st = Some CONNECTING ->
  socket st = None ->
  closingPhase st = Some CLOSED /\ queue st = [].

(** The channel events that do not report a completed connection. *)
Definition no_connection (ev : channel_event) : Prop :=
  match ev with
  | OnConnect => False
  | OnSecureConnect authorized _ => authorized = false
  | OnError _ | OnClose => True
  end.

(** A channel is held only while connecting or connected. *)
Definition channel_only_while_connecting (st : transport) : Prop :=
  socket st <> None ->
  connectingPhase st = Some CONNECTING \/ connectingPhase st = Some CONNECTED.

(** A closed transport holds no channel. *)
Definition closed_has_no_channel (st : transport) : Prop :=
  closingPhase st = Some CLOSED -> socket st = None.

(** While connected on a channel, nothing waits in the queue. *)
Definition connected_has_nothing_pending (st : transport) : Prop :=
  connectingPhase st = Some CONNECTED -> socket st <> None -> queue st = [].

(** The three together. *)
Definition well_formed (st : transport) : Prop :=
  channel_only_while_connecting st
  /\ closed_has_no_channel st
  /\ connected_has_nothing_pending st.

(** The connection attempts of a trace, with host and port. *)
Definition targets (tr : list event) : list (string * Z) :=
  omap (fun ev => match ev with SocketOpen _ p h => Some (h, p) | _ => None end) tr.

(** A channel on which no call ever raises. *)
Definition reliable_write : list event -> string -> option error := fun _ _ => None.
Definition reliable_end : list event -> option error := fun _ => None.

(** A channel on which the write of one line raises. *)
Definition write_fails_on (bad : string) (e : error) : list event -> string -> option error :=
  fun _ logLine => if String.eqb logLine bad then Some e else None.

(** Plain options, as a test would pass them. *)
Definition plain_options : options :=
  {| token := "token"; usequotes := false; host := None; port := None; secure := false |}.

Definition secure_options : options :=
  {| token := "token"; usequotes := false; host := None; port := None; secure := true |}.

End Transport.

(** ** The default wiring: [new LogEntriesTransport(opts, this)] *)

Module Wiring.

(** The transport above as the transport of a logger whose [emit] is the
    method of the emitter: what the transport emits on the logger are the
    notifications of its own trace. (When a level named [emit] has replaced
    that method, every [logger.emit] of the transport is a call of [log];
    such a logger is outside this wiring.) *)
Definition LogentriesTransport (opts : Transport.options)
    (write_throws : list Transport.event -> string -> option error)
    (end_throws : list Transport.event -> option error) :
    Logger.Transport Transport.transport :=
  {| Logger.consume := Transport.consume opts write_throws end_throws;
     Logger.transport_end := Transport.transport_end opts write_throws end_throws |}.

(** A channel event reaches the transport of the logger. *)
Definition on_channel (opts : Transport.options)
    (write_throws : list Transport.event -> string -> option error)
    (end_throws : list Transport.event -> option error)
    (ev : Transport.channel_event) (lg : Logger.logger Transport.transport) :
    Logger.logger Transport.transport :=
  {| Logger.currentLevel := Logger.currentLevel lg;
     Logger.currentLevelName := Logger.currentLevelName lg;
     Logger.transport := (Transport.react opts write_throws end_throws ev (Logger.transport lg)).1;
     Logger.trace := Logger.trace lg |}.

End Wiring.

(** * Properties of the logger *)

Module LoggerFacts.

Import Logger.

(** ** The formatter *)

(** What the callback of [flatten] appends for the property [key] holding
    [v], for an object that is not visited by index. *)
Lemma flatten_Object_cons key v rest prefix :
  array_length ((key, v) :: rest) = None ->
  array_length rest = None ->
  flatten (Object ((key, v) :: rest)) prefix =
  match v with
  | Prim p => prefix +:+ key +:+ "=" +:+ toString p +:+ " "
  | _ => flatten v (prefix +:+ key +:+ ".")
  end +:+ flatten (Object rest) prefix.
Proof.
  intros Hall Hrest. destruct v; cbn [flatten forEach]; rewrite Hall, Hrest; reflexivity.
Qed.

Lemma flatten_Object_nil prefix : flatten (Object []) prefix = "".
Proof. reflexivity. Qed.

Lemma indexed_cons n v items :
  indexed n (v :: items) = (pretty n, v) :: indexed (S n) items.
Proof.
  unfold indexed. cbn [imap]. rewrite Nat.add_0_r. f_equal.
  apply imap_ext. intros i x _. cbn. by rewrite Nat.add_succ_r.
Qed.

(** The decimal notation of a number never starts with the letter l. *)
Lemma pretty_N_go_not_l (x : N) (s rest : string) :
  s <> String "l" rest -> pretty_N_go x s <> String "l" rest.
Proof.
  revert s. induction (N.lt_wf_0 x) as [x _ IH]. intros s Hs.
  destruct (decide (x = 0%N)) as [->|Hx]; [by rewrite pretty_N_go_0|].
  rewrite pretty_N_go_step by lia. apply IH; [apply N.div_lt; lia|].
  unfold pretty_N_char. by repeat case_match.
Qed.

Lemma pretty_nat_not_length (n : nat) : pretty n <> "length".
Proof.
  unfold pretty, pretty_nat, pretty, pretty_N.
  case_decide; [discriminate|]. by apply pretty_N_go_not_l.
Qed.

Lemma property_indexed n items : property "length" (indexed n items) = None.
Proof.
  revert n. induction items as [|v items IH]; intros n; [reflexivity|].
  rewrite indexed_cons. cbn [property].
  destruct (String.eqb_spec (pretty n) "length") as [Heq|_]; [|apply IH].
  by destruct (pretty_nat_not_length n).
Qed.

(** The object whose keys are the indices of an array is not visited by
    index: it has no [length]. *)
Lemma array_length_indexed n items : array_length (indexed n items) = None.
Proof. unfold array_length. by rewrite property_indexed. Qed.



(** A date inside a structure is flattened as an empty object is: replacing
    the one by the other changes neither the way the structure is visited
    nor the text. *)
Lemma array_length_date before key d after :
  array_length (before ++ (key, Date d) :: after) =
  array_length (before ++ (key, Object []) :: after).
Proof.
  unfold array_length.
  induction before as [|[k v] before IH]; cbn [app property].
  - by destruct (String.eqb key "length").
  - by destruct (String.eqb k "length").
Qed.

Lemma flatten_Array_date before d after prefix :
  flatten (Array (before ++ Date d :: after)) prefix =
  flatten (Array (before ++ Object [] :: after)) prefix.
Proof.
  cbn [flatten forEach]. generalize 0%nat.
  induction before as [|v before IH]; intros n; cbn [app]; [reflexivity|].
  f_equal. apply IH.
Qed.

Lemma flatten_Object_date before key d after prefix :
  flatten (Object (before ++ (key, Date d) :: after)) prefix =
  flatten (Object (before ++ (key, Object []) :: after)) prefix.
Proof.
  cbn [flatten forEach]. rewrite array_length_date.
  destruct (array_length _) as [length|].
  - generalize 0%nat. induction length as [|count IH]; intros index; [reflexivity|].
    f_equal; [|apply IH]. clear IH.
    induction before as [|[k v] before IH]; cbn [app].
    + by destruct (String.eqb key (pretty index)).
    + by destruct (String.eqb k (pretty index)).
  - induction before as [|[k v] before IH]; cbn [app]; [reflexivity|].
    f_equal. apply IH.
Qed.



(** C10: in flatten mode a date inside a structure is visited as a structure
    with nothing in it, so it adds nothing to the text: [{a: d}] gives the
    empty text for every date [d], valid or not. The same holds for a date
    under any key of an object that is visited by its properties, and
    anywhere in an object or an array a date gives what an empty object
    gives in its place. Only a date that is itself the value handed to
    [log] is converted by [toISOString()]. *)
Theorem nested_date_contributes_nothing (JSON_stringify : value -> string) (opts : options)
    (d : option string) :
  opt_flatten opts = true ->
  convert JSON_stringify opts (Object [("a", Date d)]) = Normal ""
  /\ (forall prefix, flatten (Date d) prefix = "")
  /\ (forall key rest prefix,
        array_length ((key, Date d) :: rest) = None ->
        array_length rest = None ->
        flatten (Object ((key, Date d) :: rest)) prefix = flatten (Object rest) prefix)
  /\ (forall n items prefix,
        flatten (Object (indexed n (Date d :: items))) prefix =
        flatten (Object (indexed (S n) items)) prefix)
  /\ convert JSON_stringify opts (Array [Date d]) = Normal ""
  /\ (forall before key after prefix,
        flatten (Object (before ++ (key, Date d) :: after)) prefix =
        flatten (Object (before ++ (key, Object []) :: after)) prefix)
  /\ (forall before after prefix,
        flatten (Array (before ++ Date d :: after)) prefix =
        flatten (Array (before ++ Object [] :: after)) prefix)
  /\ convert JSON_stringify opts (Date d) =
       match d with
       | Some iso => Normal (replace_newlines iso)
       | None => Abrupt (Error "Invalid time value")
       end.
Proof.
  intros Hflat. unfold convert. rewrite Hflat.
  split; [reflexivity|]. split; [reflexivity|]. split; [|split; [|split; [|split; [|split]]]].
  - intros key rest prefix Hall Hrest. by rewrite flatten_Object_cons.
  - intros n items prefix. rewrite indexed_cons.
    rewrite flatten_Object_cons; [reflexivity| |apply array_length_indexed].
    rewrite <- indexed_cons. apply array_length_indexed.
  - reflexivity.
  - intros before key after prefix. apply flatten_Object_date.
  - intros before after prefix. apply flatten_Array_date.
  - by destruct d.
Qed.

Lemma nested_date_contributes_nothing_witness :
  Logger.convert (fun _ => "") (configure {| u_levels := None; u_flatten := None; u_timestamp := None |})
    (Object [("a", Date (Some "2015-05-17T15:46:17.231Z"))]) = Normal "".
Proof.
  apply (nested_date_contributes_nothing (fun _ => "")
           (configure {| u_levels := None; u_flatten := None; u_timestamp := None |})
           (Some "2015-05-17T15:46:17.231Z")).
  reflexivity.
Defined.

(** ** The level filter *)

Section Filter.

Context {T : Type} `{Transport T}.
Variable JSON_stringify : value -> string.
Variable stack : nat.
Variable opts : options.

Abbreviation log := (Logger.log JSON_stringify stack opts).
Abbreviation log_nested := (Logger.log_nested JSON_stringify opts).
Abbreviation emit := (Logger.emit JSON_stringify opts).
Abbreviation logger_end := (Logger.logger_end JSON_stringify stack opts).
Abbreviation level := (Logger.level opts).
Abbreviation run := (Logger.run JSON_stringify stack opts).
Abbreviation entry := (Logger.entry JSON_stringify opts).
Abbreviation active_threshold := (Logger.active_threshold opts).

(** [log] is its body, with [this.emit] for the notifications. *)
Lemma log_nested_unfold n nesting argLevel data more rt (lg : logger T) :
  log_nested n nesting argLevel data more rt lg =
  log_body JSON_stringify opts (emit n nesting rt) argLevel data more (rt nesting) lg.
Proof. destruct n; reflexivity. Qed.

Lemma emit_plain n nesting rt e (lg : logger T) :
  emit_overridden opts = false ->
  emit n nesting rt e lg = (Normal tt, notify e lg).
Proof. intros Hplain. unfold Logger.emit. by rewrite Hplain. Qed.

Lemma trace_notify e (lg : logger T) : trace (notify e lg) = trace lg ++ [EmitError e].
Proof. reflexivity. Qed.

(** A name that the registry neither has nor inherits: [this.emit] is
    called, and nothing else is done. *)
Lemma log_unknown n nesting (lg : logger T) argLevel data more rt :
  lookup opts argLevel = None ->
  log_nested n nesting argLevel data more rt lg =
  emit n nesting rt (Error ("Unknown log level: " +:+ argLevel)) lg.
Proof.
  intros Hnone. rewrite log_nested_unfold. unfold log_body. rewrite Hnone.
  by destruct (emit _ _ _ _ _) as [[[]|e] lg'].
Qed.

(** A value of the registry that the current level is not below or equal
    to: nothing at all. *)
Lemma log_filtered n nesting (lg : logger T) argLevel v data more rt :
  lookup opts argLevel = Some v ->
  le (currentLevel lg) v = false ->
  log_nested n nesting argLevel data more rt lg = (Normal tt, lg).
Proof.
  intros Hv Hle. rewrite log_nested_unfold. unfold log_body. rewrite Hv. cbn.
  by rewrite Hle.
Qed.

(** The entry cannot be made: the exception goes to the caller. *)
Lemma log_throws n nesting (lg : logger T) argLevel v data more rt e :
  lookup opts argLevel = Some v ->
  le (currentLevel lg) v = true ->
  entry argLevel data more (rt nesting) = Abrupt e ->
  log_nested n nesting argLevel data more rt lg = (Abrupt e, lg).
Proof.
  intros Hv Hle Hentry. rewrite log_nested_unfold. unfold log_body. rewrite Hv. cbn.
  by rewrite Hle, Hentry.
Qed.

(** The entry goes to the transport, and what the transport raises goes to
    [this.emit]. *)
Lemma log_passed n nesting (lg : logger T) argLevel v data more rt args :
  lookup opts argLevel = Some v ->
  le (currentLevel lg) v = true ->
  entry argLevel data more (rt nesting) = Normal args ->
  let sent := consume args (transport lg) in
  let lg' :=
    {| currentLevel := currentLevel lg;
       currentLevelName := currentLevelName lg;
       transport := sent.1;
       trace := trace lg ++ [Consume args] |} in
  log_nested n nesting argLevel data more rt lg =
  match sent.2 with
  | Some err => emit n nesting rt err lg'
  | None => (Normal tt, lg')
  end.
Proof.
  intros Hv Hle Hentry. cbv zeta. rewrite log_nested_unfold. unfold log_body. rewrite Hv. cbn.
  rewrite Hle, Hentry. by destruct (consume _ _) as [t [err|]].
Qed.

(** *** What no call of [log] or [end] changes *)

Lemma keeps_refl (lg : logger T) : keeps lg lg.
Proof. split; [done|]. split; [done|]. exists []. by rewrite app_nil_r. Qed.

Lemma keeps_trans (lg1 lg2 lg3 : logger T) : keeps lg1 lg2 -> keeps lg2 lg3 -> keeps lg1 lg3.
Proof.
  intros (Hl & Hn & evs & Ht) (Hl' & Hn' & evs' & Ht').
  split; [congruence|]. split; [congruence|].
  exists (evs ++ evs'). by rewrite Ht', Ht, app_assoc.
Qed.

Lemma keeps_notify e (lg : logger T) : keeps lg (notify e lg).
Proof. split; [done|]. split; [done|]. by exists [EmitError e]. Qed.

Lemma log_body_keeps (this_emit : error -> logger T -> completion unit * logger T)
    argLevel data more rt (lg : logger T) :
  (forall e lg0, keeps lg0 (this_emit e lg0).2) ->
  keeps lg (log_body JSON_stringify opts this_emit argLevel data more rt lg).2.
Proof.
  intros Hemit. unfold log_body.
  destruct (lookup opts argLevel) as [v|]; cbn.
  - destruct (le _ _); [|apply keeps_refl].
    destruct (Logger.entry _ _ _ _ _ _) as [args|e]; [|apply keeps_refl].
    destruct (consume _ _) as [t [err|]].
    + eapply keeps_trans; [|apply Hemit].
      split; [done|]. split; [done|]. by exists [Consume args].
    + split; [done|]. split; [done|]. by exists [Consume args].
  - specialize (Hemit (Error ("Unknown log level: " +:+ argLevel)) lg).
    by destruct (this_emit _ _) as [[[]|e] lg'].
Qed.

Lemma log_nested_keeps n nesting argLevel data more rt (lg : logger T) :
  keeps lg (log_nested n nesting argLevel data more rt lg).2.
Proof.
  revert nesting argLevel data more lg.
  induction n as [|n IH]; intros nesting argLevel data more lg;
    rewrite log_nested_unfold; apply log_body_keeps; intros e lg0; unfold Logger.emit;
    (destruct (emit_overridden opts); [|apply keeps_notify]).
  - apply keeps_refl.
  - apply IH.
Qed.

Lemma emit_keeps n nesting rt e (lg : logger T) : keeps lg (emit n nesting rt e lg).2.
Proof.
  unfold Logger.emit. destruct (emit_overridden opts); [|apply keeps_notify].
  destruct n; [apply keeps_refl|apply log_nested_keeps].
Qed.

Lemma log_keeps argLevel data more rt (lg : logger T) :
  keeps lg (log argLevel data more rt lg).2.
Proof. apply log_nested_keeps. Qed.

Lemma logger_end_keeps rt (lg : logger T) : keeps lg (logger_end rt lg).2.
Proof.
  unfold Logger.logger_end. destruct (transport_end _) as [t [err|]].
  - eapply keeps_trans; [|apply emit_keeps].
    split; [done|]. split; [done|]. by exists [TransportEnd].
  - split; [done|]. split; [done|]. by exists [TransportEnd].
Qed.

Lemma truthy_Some name : name <> "" -> truthy (Some name) = Some name.
Proof. by destruct name. Qed.

Lemma currentLevel_level (lg : logger T) newLevelName :
  currentLevel (level newLevelName lg).2 =
  default (currentLevel lg) (sets_threshold opts (CallLevel newLevelName)).
Proof.
  unfold Logger.level, sets_threshold.
  destruct newLevelName as [name|]; [|reflexivity].
  destruct (decide (name = "")) as [->|Hne]; [reflexivity|].
  rewrite truthy_Some by done.
  destruct (lookup opts name); reflexivity.
Qed.

(** The current level is the active threshold, and the sentinel [-1] as long
    as no call has set one. *)
Lemma currentLevel_run (t : T) calls :
  currentLevel (run calls (create t)) = default (Severity (-1)) (active_threshold calls).
Proof.
  induction calls as [|c calls IH] using rev_ind; [reflexivity|].
  unfold Logger.run, Logger.active_threshold in *.
  rewrite foldl_app, omap_app. cbn [foldl].
  change (omap (sets_threshold opts) [c])
    with (match sets_threshold opts c with Some y => [y] | None => [] end).
  destruct c as [argLevel data more rt|newLevelName|rt]; cbn [Logger.step].
  - rewrite (proj1 (log_keeps _ _ _ _ _)), IH. cbn. by rewrite app_nil_r.
  - rewrite currentLevel_level, IH.
    destruct (sets_threshold opts (CallLevel newLevelName)) as [v|]; cbn [default].
    + by rewrite last_snoc.
    + by rewrite app_nil_r.
  - rewrite (proj1 (logger_end_keeps _ _)), IH. cbn. by rewrite app_nil_r.
Qed.

Lemma handed_app tr tr' : handed (tr ++ tr') = handed tr ++ handed tr'.
Proof. apply omap_app. Qed.

Lemma notified_app tr tr' : notified (tr ++ tr') = notified tr ++ notified tr'.
Proof. apply omap_app. Qed.

(** C8, as the code has it: a name that is not empty and is registered is
    set and returned, also by the next [level()]; a name that is not empty
    and is neither registered nor the name of a member of
    [Object.prototype] makes [level] throw ["Unknown log level: "] followed
    by the name, with the logger left as it was; the empty name is read as
    no argument. *)
Theorem level_set_get_or_throw (lg : logger T) (name : string) :
  name <> "" ->
  (forall s, levels opts !! name = Some s ->
     (level (Some name) lg).1 = Returned (Some name)
     /\ currentLevel (level (Some name) lg).2 = Severity s
     /\ currentLevelName (level (Some name) lg).2 = Some name
     /\ level None (level (Some name) lg).2 = (Returned (Some name), (level (Some name) lg).2))
  /\ (levels opts !! name = None ->
      inherited name = None ->
      level (Some name) lg = (Thrown (Error ("Unknown log level: " +:+ name)), lg))
  /\ level (Some "") lg = level None lg
  /\ level None lg = (Returned (currentLevelName lg), lg).
Proof.
  intros Hne. unfold Logger.level, lookup. rewrite truthy_Some by done.
  split; [|split; [|split]].
  - intros s Hs. rewrite Hs. repeat split.
  - intros Hnone Hinherited. rewrite Hnone, Hinherited. reflexivity.
  - reflexivity.
  - reflexivity.
Qed.

End Filter.

(** ** Inputs on which [log] leaves its intended behaviour *)

(** C1: the name [info] is registered and no threshold is set, so the entry
    should go to the transport. For an invalid date as value the conversion
    [data.toISOString()] throws before the [try] block is entered: the
    exception reaches the caller, [transport.consume] is not called and
    nothing is notified. The same happens when the timestamp function
    returns a number that is no valid time. A valid date in the same call
    is handed over. *)
Theorem log_invalid_date_throws_to_the_caller (JSON_stringify : value -> string) (stack : nat) :
  levels default_options !! "info" = Some 1%Z
  /\ currentLevelName createLogger = None
  /\ log JSON_stringify stack default_options "info" (Date None) [] test_runtime createLogger =
       (Abrupt (Error "Invalid time value"), createLogger)
  /\ log JSON_stringify stack test_options "info" (Prim (Str "t1")) []
         (fun _ => {| now := "1970-01-01T00:00:00.000Z"; provided := TsNumber None |})
         createLogger =
       (Abrupt (Error "Invalid time value"), createLogger)
  /\ handed
       (trace (log JSON_stringify stack test_options "info"
                 (Date (Some "2015-05-17T15:46:17.231Z")) [] test_runtime createLogger).2) =
       [[FIX_TIMESTAMP_ISO_STRING; "info"; "2015-05-17T15:46:17.231Z"]].
Proof.
  unfold log. rewrite !log_nested_unfold. vm_compute. repeat split.
Qed.

(** C7: two names outside the registry for which [log] emits no
    ['Unknown log level'] notification. The name [toString] is no key of the
    default registry, but [opts.levels['toString']] is the function that
    every object inherits, not [undefined]: the call notifies nothing and
    returns. With a level named [emit] in the registry, [this.emit] is the
    convenience method of that level: for the unknown name [bogus] the call
    hands an entry of level [emit] to the transport and notifies nothing. *)
Theorem log_unknown_name_without_notification (JSON_stringify : value -> string) (stack : nat) :
  levels default_options !! "toString" = None
  /\ log JSON_stringify stack default_options "toString" (Prim (Str "t1")) [] test_runtime
       createLogger =
     (Normal tt, createLogger)
  /\ levels emit_options !! "bogus" = None
  /\ log JSON_stringify (S stack) emit_options "bogus" (Prim (Str "t1")) [] test_runtime
       createLogger =
     (Normal tt,
      {| currentLevel := Severity (-1);
         currentLevelName := None;
         transport :=
           [[FIX_TIMESTAMP_ISO_STRING; "emit"; "error"; "Error: Unknown log level: bogus"]];
         trace :=
           [Consume [FIX_TIMESTAMP_ISO_STRING; "emit"; "error";
                     "Error: Unknown log level: bogus"]] |}).
Proof.
  unfold log. rewrite !log_nested_unfold.
  split; [vm_compute; reflexivity|]. split; [vm_compute; reflexivity|].
  split; [vm_compute; reflexivity|].
  unfold log_body. change (lookup emit_options "bogus") with (@None level_value).
  unfold emit. change (emit_overridden emit_options) with true. cbv iota.
  rewrite log_nested_unfold. vm_compute. reflexivity.
Qed.

(** The empty name is no key of the default registry, and [level("")] does
    not throw: it answers as [level()] does. *)
Lemma level_empty_name_does_not_throw :
  ~ (forall name : string,
       levels default_options !! name = None ->
       (level default_options (Some name) createLogger).1 =
       Thrown (Error ("Unknown log level: " +:+ name))).
Proof.
  intros Hclaim. specialize (Hclaim "" eq_refl). discriminate Hclaim.
Qed.

Lemma level_set_get_or_throw_witness :
  level default_options (Some "invalid") createLogger =
  (Thrown (Error "Unknown log level: invalid"), createLogger).
Proof.
  apply (level_set_get_or_throw default_options createLogger "invalid").
  - discriminate.
  - reflexivity.
  - reflexivity.
Defined.

(** ** The test suite, replayed on the embedding *)

(** "should filter based on log level set". *)
Example test_filter_based_on_level :
  let lg :=
    run (fun _ => "") 0 test_options
      (CallLevel (Some "err")
       :: map (fun l => CallLog l.1 (Prim (Str l.2)) [] test_runtime)
            [("debug", "t0"); ("info", "t1"); ("notice", "t2"); ("warning", "t3");
             ("err", "t4"); ("crit", "t5"); ("alert", "t6"); ("emerg", "t7")])
      createLogger in
  transport lg =
    [[FIX_TIMESTAMP_ISO_STRING; "err"; "t4"]; [FIX_TIMESTAMP_ISO_STRING; "crit"; "t5"];
     [FIX_TIMESTAMP_ISO_STRING; "alert"; "t6"]; [FIX_TIMESTAMP_ISO_STRING; "emerg"; "t7"]]
  /\ (level test_options None lg).1 = Returned (Some "err").
Proof. vm_compute. split; reflexivity. Qed.

(** "should support flattened objects". *)
Example test_flattened_objects :
  transport
    (run (fun _ => "") 0 test_options
       (map (fun data => CallLog "info" data [] test_runtime)
          [Object [("a", Prim (Str "1")); ("b", Prim (Str "2"))];
           Array [Prim (Str "a"); Prim (Str "b")];
           Object [("a", Prim Null)];
           Object [("a", Array [])];
           Object [("a", Array [Prim Null])]])
       createLogger) =
    [[FIX_TIMESTAMP_ISO_STRING; "info"; "a=1 b=2 "]; [FIX_TIMESTAMP_ISO_STRING; "info"; "0=a 1=b "];
     [FIX_TIMESTAMP_ISO_STRING; "info"; "a=null "]; [FIX_TIMESTAMP_ISO_STRING; "info"; ""];
     [FIX_TIMESTAMP_ISO_STRING; "info"; "a.0=null "]].
Proof. vm_compute. reflexivity. Qed.

(** "should replace newlines in strings with unicode line separator". *)
Example test_newlines :
  convert (fun _ => "") test_options
    (Prim (Str ("str0" +:+ Transport.newline +:+ "str1" +:+ Transport.newline +:+ "str2"))) =
  Normal ("str0" +:+ line_separator +:+ "str1" +:+ line_separator +:+ "str2").
Proof. vm_compute. reflexivity. Qed.

(** "should emit error if log is called with unknown log level". *)
Example test_unknown_level :
  run (fun _ => "") 0 test_options [CallLog "invalid" (Prim (Str "t1")) [] test_runtime]
    createLogger =
  notify (Error "Unknown log level: invalid") createLogger.
Proof. vm_compute. reflexivity. Qed.

(** An object with a [length] is visited by index, and a registry name that
    every object inherits is accepted by [level]. *)
Example flatten_object_with_length :
  flatten (Object [("length", Prim (Number (Int 2))); ("width", Prim (Number (Int 3)))]) "" =
    "0=undefined 1=undefined "
  /\ flatten (Object [("length", Prim (Number (Int 0))); ("width", Prim (Number (Int 3)))]) "" = ""
  /\ flatten (Object [("0", Date None); ("length", Prim (Number (Int 1)))]) "" = ""
  /\ flatten (Object [("length", Prim (Number (Int 1)))]) "" = "0=undefined ".
Proof. vm_compute. repeat split. Qed.

Example level_inherited_name :
  let lg := level default_options (Some "toString") createLogger in
  lg.1 = Returned (Some "toString")
  /\ currentLevel lg.2 = Inherited "function toString() { [native code] }"
  /\ currentLevelName lg.2 = Some "toString"
  /\ log (fun _ => "") 0 default_options "emerg" (Prim (Str "x")) [] test_runtime lg.2 =
       (Normal tt, lg.2).
Proof. vm_compute. repeat split. Qed.

(** A level named [emit] on a transport that refuses every entry: the
    exception of [consume] goes to [this.emit], which is [log] again, whose
    entry is refused again, until the call stack is used up. *)
Example emit_level_reenters_log :
  @Logger.log _ (refusing (Error "closed")) (fun _ => "") 2 emit_options
    "info" (Prim (Str "t1")) [] test_runtime (create tt) =
  (Abrupt stack_overflow,
   {| currentLevel := Severity (-1);
      currentLevelName := None;
      transport := tt;
      trace :=
        [Consume [FIX_TIMESTAMP_ISO_STRING; "info"; "t1"];
         Consume [FIX_TIMESTAMP_ISO_STRING; "emit"; "error"; "Error: closed"];
         Consume [FIX_TIMESTAMP_ISO_STRING; "emit"; "error"; "Error: closed"]] |}).
Proof. vm_compute. reflexivity. Qed.

(** ** The statements at concrete loggers *)

Lemma default_severities :
  map_Forall (fun _ severity => (-1 <= severity)%Z) (levels default_options).
Proof. apply (bool_decide_unpack _). vm_compute. exact I. Defined.

End LoggerFacts.

(** * Properties of the transport *)

Module TransportFacts.

Import Transport.

(** Reads the fields of a state built by the setters. *)
Ltac state :=
  unfold set_queue, set_socket, set_connectingPhase, set_closingPhase, record in *;
  cbn [queue socket connectingPhase closingPhase trace] in *.

(** Brings both sides of an equation between traces to one shape. *)
Ltac traces :=
  cbv zeta; unfold Transport.written; cbn [flat_map];
  rewrite <- ?app_assoc; cbn [app]; rewrite <- ?app_assoc.

Section Facts.

Variable opts : options.
Variable write_throws : list event -> string -> option error.
Variable end_throws : list event -> option error.

Abbreviation closeSocket := (Transport.closeSocket end_throws).
Abbreviation drain := (Transport.drain opts write_throws end_throws).
Abbreviation processItemsInQueue := (Transport.processItemsInQueue opts write_throws end_throws).
Abbreviation handleConnection := (Transport.handleConnection opts write_throws end_throws).
Abbreviation handleError := (Transport.handleError end_throws).
Abbreviation handleClose := (Transport.handleClose end_throws).
Abbreviation handleSecureConnection :=
  (Transport.handleSecureConnection opts write_throws end_throws).
Abbreviation react := (Transport.react opts write_throws end_throws).
Abbreviation consume := (Transport.consume opts write_throws end_throws).
Abbreviation transport_end := (Transport.transport_end opts write_throws end_throws).
Abbreviation run := (Transport.run opts write_throws end_throws).
Abbreviation reachable := (Transport.reachable opts write_throws end_throws).
Abbreviation written := (Transport.written opts).
Abbreviation all_written := (Transport.all_written opts write_throws).
Abbreviation closing := (Transport.closing end_throws).
Abbreviation line := (fun item => createLogLine item opts).

(** ** Closing the channel *)

Lemma closeSocket_open st c :
  socket st = Some c ->
  closeSocket st =
  {| queue := queue st; socket := None; connectingPhase := connectingPhase st;
     closingPhase := closingPhase st; trace := trace st ++ closing (trace st) |}.
Proof.
  intros Hc. unfold Transport.closeSocket, Transport.closing. rewrite Hc.
  destruct (end_throws (trace st)) as [e|]; state; [|reflexivity].
  by rewrite <- app_assoc.
Qed.

Lemma closeSocket_null st : socket st = None -> closeSocket st = st.
Proof. intros Hc. unfold Transport.closeSocket. by rewrite Hc. Qed.

Lemma connectingPhase_closeSocket st : connectingPhase (closeSocket st) = connectingPhase st.
Proof.
  unfold Transport.closeSocket. destruct (socket st); [|done].
  destruct (end_throws _); state; done.
Qed.

Lemma queue_closeSocket st : queue (closeSocket st) = queue st.
Proof.
  unfold Transport.closeSocket. destruct (socket st); [|done].
  destruct (end_throws _); state; done.
Qed.

Lemma closingPhase_closeSocket st : closingPhase (closeSocket st) = closingPhase st.
Proof.
  unfold Transport.closeSocket. destruct (socket st); [|done].
  destruct (end_throws _); state; done.
Qed.

Lemma socket_closeSocket st : socket (closeSocket st) = None.
Proof.
  unfold Transport.closeSocket. destruct (socket st) eqn:Hc; [|done].
  destruct (end_throws _); state; done.
Qed.

Lemma write_calls_app tr tr' : write_calls (tr ++ tr') = write_calls tr ++ write_calls tr'.
Proof. apply omap_app. Qed.

Lemma write_calls_closeSocket st :
  write_calls (trace (closeSocket st)) = write_calls (trace st).
Proof.
  unfold Transport.closeSocket. destruct (socket st); [|done].
  destruct (end_throws _); state; rewrite ?write_calls_app; cbn; by rewrite ?app_nil_r.
Qed.

(** ** One turn of the loop of [processItemsInQueue] *)

Lemma written_cons item items :
  written (item :: items) = EmitLog (line item) :: SocketWrite (line item) None :: written items.
Proof. reflexivity. Qed.

Lemma written_app items items' : written (items ++ items') = written items ++ written items'.
Proof. unfold Transport.written. by rewrite flat_map_app. Qed.

Lemma drain_step item rest st c :
  socket st = Some c ->
  drain (item :: rest) st =
  match write_throws (trace st ++ [EmitLog (line item)]) (line item) with
  | None =>
      drain rest
        {| queue := rest; socket := Some c; connectingPhase := connectingPhase st;
           closingPhase := closingPhase st;
           trace := trace st ++ [EmitLog (line item); SocketWrite (line item) None] |}
  | Some e =>
      let tr := trace st ++ [EmitLog (line item); SocketWrite (line item) (Some e); EmitError e] in
      {| queue := item :: rest; socket := None; connectingPhase := Some DISCONNECTED;
         closingPhase := closingPhase st; trace := tr ++ closing tr |}
  end.
Proof.
  intros Hc. cbn [Transport.drain]. state. rewrite Hc.
  destruct (write_throws _ _) as [e|].
  - unfold requeue. state. rewrite (closeSocket_open _ c) by done. state.
    by rewrite <- !app_assoc.
  - rewrite <- app_assoc. reflexivity.
Qed.

(** With no channel the write raises before anything is written. *)
Lemma drain_null item rest st :
  socket st = None ->
  drain (item :: rest) st =
  {| queue := item :: rest; socket := None; connectingPhase := Some DISCONNECTED;
     closingPhase := closingPhase st;
     trace := trace st ++ [EmitLog (line item); EmitError null_socket] |}.
Proof.
  intros Hc. cbn [Transport.drain]. state. rewrite Hc.
  unfold requeue. state. rewrite closeSocket_null by done. state.
  by rewrite <- app_assoc.
Qed.

(** The loop reads the queue again at every turn: running it on the list it
    started with is running it on the queue as it is after each write. *)
Lemma processItemsInQueue_loop st :
  processItemsInQueue st =
  match queue st with
  | [] => st
  | item :: rest =>
      let st := record (EmitLog (line item)) (set_queue rest st) in
      match socket st with
      | None => requeue end_throws null_socket item st
      | Some _ =>
          let thrown := write_throws (trace st) (line item) in
          let st := record (SocketWrite (line item) thrown) st in
          match thrown with
          | Some e => requeue end_throws e item st
          | None => processItemsInQueue st
          end
      end
  end.
Proof.
  unfold Transport.processItemsInQueue.
  destruct (queue st) as [|item rest]; reflexivity.
Qed.

(** ** The whole loop *)

(** No write fails: everything is written, in the order of the queue. *)
Lemma drain_written pending st c :
  queue st = pending ->
  socket st = Some c ->
  all_written pending (trace st) = true ->
  drain pending st =
  {| queue := []; socket := Some c; connectingPhase := connectingPhase st;
     closingPhase := closingPhase st; trace := trace st ++ written pending |}.
Proof.
  revert st. induction pending as [|item rest IH]; intros st Hq Hc Hall.
  - destruct st; cbn in *. subst. by rewrite app_nil_r.
  - rewrite (drain_step _ _ _ c) by done. cbn in Hall.
    destruct (write_throws _ _) as [e|]; [done|].
    rewrite IH by done. cbn. by rewrite <- app_assoc.
Qed.

(** The write of [item] fails after those of [done] went through. *)
Lemma drain_failure done item rest st c e :
  socket st = Some c ->
  all_written done (trace st) = true ->
  write_throws (trace st ++ written done ++ [EmitLog (line item)]) (line item) = Some e ->
  drain (done ++ item :: rest) st =
  let tr := trace st ++ written done
            ++ [EmitLog (line item); SocketWrite (line item) (Some e); EmitError e] in
  {| queue := item :: rest; socket := None; connectingPhase := Some DISCONNECTED;
     closingPhase := closingPhase st; trace := tr ++ closing tr |}.
Proof.
  revert st. induction done as [|first done IH]; intros st Hc Hall Hfail.
  - cbn in Hfail. cbn [app]. rewrite (drain_step _ _ _ c) by done. by rewrite Hfail.
  - cbn [app]. rewrite (drain_step _ _ _ c) by done. cbn in Hall.
    destruct (write_throws _ _) as [e'|]; [done|].
    rewrite IH; state.
    + traces. reflexivity.
    + done.
    + done.
    + revert Hfail. traces. done.
Qed.

(** Either no write of [pending] fails, or there is a first one that does. *)
Lemma all_written_cases pending tr :
  all_written pending tr = true
  \/ exists done item rest e,
       pending = done ++ item :: rest
       /\ all_written done tr = true
       /\ write_throws (tr ++ written done ++ [EmitLog (line item)]) (line item) = Some e.
Proof.
  revert tr. induction pending as [|first pending IH]; intros tr; [by left|].
  cbn [Transport.all_written].
  destruct (write_throws (tr ++ [EmitLog (line first)]) (line first)) as [e|] eqn:Hw.
  - right. exists [], first, pending, e. cbn. done.
  - destruct (IH (tr ++ [EmitLog (line first); SocketWrite (line first) None]))
      as [Hall|(done & item & rest & e & -> & Hall & Hfail)]; [by left|right].
    exists (first :: done), item, rest, e. split; [done|]. split.
    + cbn. by rewrite Hw.
    + revert Hfail. traces. done.
Qed.

Lemma write_calls_written items : write_calls (written items) = map line items.
Proof. induction items as [|item items IH]; [done|]. cbn. by rewrite <- IH. Qed.

Lemma write_calls_closing tr : write_calls (closing tr) = [].
Proof. unfold Transport.closing. by destruct (end_throws tr). Qed.

(** What every run of the loop does: the closing phase stays; either the
    queue is emptied with the channel and the phase as they were, or the
    loop stops on a failure with the channel gone and the phase
    [DISCONNECTED]; the lines handed to [socket.write] are those of a front
    part of the queue, in its order. *)
Lemma drain_summary st :
  let st' := processItemsInQueue st in
  closingPhase st' = closingPhase st
  /\ (queue st' = [] /\ socket st' = socket st /\ connectingPhase st' = connectingPhase st
      \/ queue st' <> [] /\ socket st' = None /\ connectingPhase st' = Some DISCONNECTED)
  /\ (exists n, write_calls (trace st') = write_calls (trace st) ++ map line (take n (queue st)))
  /\ (exists evs, trace st' = trace st ++ evs
                 /\ (socket st <> None -> socket st' = None ->
                     exists thrown, SocketEnd thrown ∈ evs)).
Proof.
  unfold Transport.processItemsInQueue. cbv zeta.
  destruct (socket st) as [c|] eqn:Hc.
  - destruct (all_written_cases (queue st) (trace st))
      as [Hall|(done & item & rest & e & Hq & Hall & Hfail)].
    + rewrite (drain_written _ _ c) by done. state.
      split; [done|]. split; [by left|]. split.
      * exists (length (queue st)).
        by rewrite firstn_all, write_calls_app, write_calls_written.
      * exists (written (queue st)). split; [done|]. intros _ [=].
    + rewrite Hq, (drain_failure _ _ _ _ c e) by done. state.
      split; [done|]. split; [by right|]. split.
      * exists (S (length done)).
        rewrite !write_calls_app, write_calls_written, write_calls_closing.
        rewrite app_nil_r. f_equal.
        replace (S (length done)) with (length (done ++ [item]))
          by (rewrite length_app; cbn; lia).
        replace (done ++ item :: rest) with ((done ++ [item]) ++ rest)
          by (by rewrite <- app_assoc).
        by rewrite take_app_length, map_app.
      * eexists. split; [rewrite <- !app_assoc; reflexivity|].
        intros _ _. unfold Transport.closing.
        destruct (end_throws _); eexists; rewrite !elem_of_app;
          right; right; apply list_elem_of_here.
  - destruct (queue st) as [|item rest] eqn:Hq.
    + cbn. rewrite Hc, Hq. split; [done|]. split; [by left|]. split.
      * exists 0%nat. by rewrite app_nil_r.
      * exists []. by rewrite app_nil_r.
    + rewrite drain_null by done. state.
      split; [done|]. split; [by right|]. split.
      * exists 0%nat. rewrite write_calls_app. cbn. reflexivity.
      * eexists. split; [reflexivity|]. done.
Qed.

Lemma errors_app tr tr' : errors (tr ++ tr') = errors tr ++ errors tr'.
Proof. apply omap_app. Qed.

Lemma errors_written items : errors (written items) = [].
Proof. induction items as [|item items IH]; [done|]. cbn. exact IH. Qed.

(** C2: the write of the entry [item] at the front of the queue fails during
    a drain, after the entries [done] were written. Then the drain stops
    there: the queue is [item] followed by what was behind it, the write
    failure is notified once, the channel is closed (a failure of the close
    is notified as well, by [closeSocket]), the phase is [DISCONNECTED] and
    no entry after [item] is handed to [socket.write]. *)
Theorem write_failure_requeues_at_front (st : transport) (c : channel)
    (done : list (list string)) (item : list string) (rest : list (list string)) (e : error) :
  socket st = Some c ->
  queue st = done ++ item :: rest ->
  all_written done (trace st) = true ->
  write_throws (trace st ++ written done ++ [EmitLog (line item)]) (line item) = Some e ->
  let st' := processItemsInQueue st in
  let failed := trace st ++ written done
                ++ [EmitLog (line item); SocketWrite (line item) (Some e); EmitError e] in
  queue st' = item :: rest
  /\ trace st' = failed ++ closing failed
  /\ errors (trace st') =
       errors (trace st) ++ e :: match end_throws failed with Some e' => [e'] | None => [] end
  /\ write_calls (trace st') = write_calls (trace st) ++ map line done ++ [line item]
  /\ socket st' = None
  /\ connectingPhase st' = Some DISCONNECTED
  /\ closingPhase st' = closingPhase st.
Proof.
  intros Hc Hq Hall Hfail. unfold Transport.processItemsInQueue. cbv zeta.
  rewrite Hq, (drain_failure _ _ _ _ c e) by done. state.
  repeat split.
  - rewrite !errors_app, errors_written. unfold Transport.closing.
    destruct (end_throws _); cbn; rewrite <- ?app_assoc; reflexivity.
  - rewrite !write_calls_app, write_calls_written, write_calls_closing.
    cbn. by rewrite app_nil_r.
Qed.

(** ** Consuming *)

Lemma consume_connecting st items :
  connectingPhase st = Some CONNECTING ->
  closingPhase st = None ->
  consume items st = (set_queue (queue st ++ [items]) st, None).
Proof. intros Hp Hcl. unfold Transport.consume. state. by rewrite Hcl, Hp. Qed.

Lemma consume_disconnected st items :
  connectingPhase st = None \/ connectingPhase st = Some DISCONNECTED ->
  closingPhase st = None ->
  consume items st = (connect opts (set_queue (queue st ++ [items]) st), None).
Proof.
  intros Hp Hcl. unfold Transport.consume. state. rewrite Hcl.
  by destruct Hp as [-> | ->].
Qed.

Lemma consume_closing st items :
  closingPhase st <> None ->
  consume items st = (st, Some (Error "Transport is already closed")).
Proof. intros Hcl. unfold Transport.consume. by destruct (closingPhase st). Qed.

(** Entries consumed while connecting are appended, and nothing else. *)
Lemma consume_all_connecting more st :
  connectingPhase st = Some CONNECTING ->
  closingPhase st = None ->
  run (map CallConsume more) st = set_queue (queue st ++ more) st.
Proof.
  revert st. induction more as [|items more IH]; intros st Hp Hcl.
  - cbn. destruct st; state. by rewrite app_nil_r.
  - cbn. rewrite consume_connecting by done. cbn [fst].
    unfold Transport.run in IH. rewrite IH by done. state.
    by rewrite <- app_assoc.
Qed.

Lemma attempts_app tr tr' : attempts (tr ++ tr') = attempts tr ++ attempts tr'.
Proof. apply omap_app. Qed.

(** C3: entries are consumed while the phase is [DISCONNECTED] (or not yet
    set) and no close was asked for. The first call starts a connection
    attempt, the others only append to the queue: one attempt, however many
    entries. When the channel then connects, the lines handed to
    [socket.write] are those of the queue from its front, in its order, and
    all of them when no write fails. *)
Theorem consume_connects_once_and_drains_fifo (st : transport)
    (items : list string) (more : list (list string)) :
  connectingPhase st = None \/ connectingPhase st = Some DISCONNECTED ->
  closingPhase st = None ->
  let h := host_or (host opts) DEFAULT_LE_HOST in
  let p := port_or (port opts) (if secure opts then DEFAULT_LE_PORT_SECURE else DEFAULT_LE_PORT) in
  let st1 := run (map CallConsume (items :: more)) st in
  trace st1 = trace st ++ [EmitConnect h p (token opts); SocketOpen (secure opts) p h]
  /\ attempts (trace st1) = attempts (trace st) ++ [h]
  /\ queue st1 = queue st ++ items :: more
  /\ connectingPhase st1 = Some CONNECTING
  /\ closingPhase st1 = None
  /\ (forall next, consume next st1 = (set_queue (queue st1 ++ [next]) st1, None))
  /\ let st2 := handleConnection st1 in
     (exists n, write_calls (trace st2) = write_calls (trace st1) ++ map line (take n (queue st1)))
     /\ (all_written (queue st1) (trace st1) = true ->
         trace st2 = trace st1 ++ written (queue st1)
         /\ queue st2 = []
         /\ connectingPhase st2 = Some CONNECTED).
Proof.
  intros Hp Hcl h p st1.
  assert (Hst1 : st1 =
    {| queue := queue st ++ items :: more;
       socket := Some {| ch_secure := secure opts; ch_port := p; ch_host := h |};
       connectingPhase := Some CONNECTING; closingPhase := None;
       trace := trace st ++ [EmitConnect h p (token opts); SocketOpen (secure opts) p h] |}).
  { subst st1. cbn [map]. unfold Transport.run. cbn [foldl Transport.step].
    rewrite consume_disconnected by done. cbn [fst].
    pose proof (consume_all_connecting more
                  (connect opts (set_queue (queue st ++ [items]) st))) as Hmore.
    unfold Transport.run in Hmore. rewrite Hmore by (unfold connect; state; done).
    unfold connect. state. rewrite Hcl. by rewrite <- !app_assoc. }
  clearbody st1. subst st1. state.
  split; [done|]. split; [by rewrite attempts_app|]. split; [done|].
  split; [done|]. split; [done|]. split; [intros next; by rewrite consume_connecting|].
  unfold Transport.handleConnection.
  match goal with |- context [processItemsInQueue ?s] => set (connected := s) end.
  pose proof (drain_summary connected) as (Hclosing & _ & Hprefix & _).
  rewrite Hclosing. subst connected. state. split; [exact Hprefix|].
  intros Hall. unfold Transport.processItemsInQueue. state.
  rewrite (drain_written _ _ {| ch_secure := secure opts; ch_port := p; ch_host := h |})
    by done.
  done.
Qed.

(** ** The secure channel *)

Lemma queue_handleError e st : queue (handleError e st) = queue st.
Proof. unfold Transport.handleError. state. by rewrite queue_closeSocket. Qed.

Lemma write_calls_handleError e st :
  write_calls (trace (handleError e st)) = write_calls (trace st).
Proof.
  unfold Transport.handleError. state.
  rewrite write_calls_closeSocket. state. rewrite write_calls_app. cbn.
  by rewrite app_nil_r.
Qed.

(** A channel event that reports no connection leaves the queue and the
    writes as they are, and does not make the transport connected. *)
Lemma react_no_connection ev st :
  no_connection ev ->
  connectingPhase st <> Some CONNECTED ->
  let st' := (react ev st).1 in
  connectingPhase st' <> Some CONNECTED
  /\ queue st' = queue st
  /\ write_calls (trace st') = write_calls (trace st).
Proof.
  intros Hev Hp. destruct ev as [|authorized authorizationError|e|]; cbn [Transport.react].
  - destruct Hev.
  - cbn in Hev. subst authorized.
    destruct (secure opts); [|done]. destruct (socket st); [|done].
    cbn [fst Transport.handleSecureConnection negb].
    split; [unfold Transport.handleError; state; done|].
    by rewrite queue_handleError, write_calls_handleError.
  - cbn [fst]. split; [unfold Transport.handleError; state; done|].
    by rewrite queue_handleError, write_calls_handleError.
  - cbn [fst]. unfold Transport.handleClose. state.
    by rewrite queue_closeSocket, write_calls_closeSocket.
Qed.

Lemma run_no_connection evs st :
  Forall no_connection evs ->
  connectingPhase st <> Some CONNECTED ->
  let st' := run (map Channel evs) st in
  connectingPhase st' <> Some CONNECTED
  /\ queue st' = queue st
  /\ write_calls (trace st') = write_calls (trace st).
Proof.
  intros Hevs. revert st. induction Hevs as [|ev evs Hev _ IH]; intros st Hp; [done|].
  cbn [map]. unfold Transport.run in *. cbn [foldl Transport.step].
  destruct (react_no_connection ev st Hev Hp) as (Hp' & Hq & Hw).
  destruct (IH _ Hp') as (Hp'' & Hq' & Hw').
  split; [exact Hp''|]. split; congruence.
Qed.

(** X22: the reaction to the secure callback of an open secure channel
    whose peer is not authorized. The transport reacts as to a channel
    error carrying the authorization error: it notifies the error, closes
    the channel and sets the phase to [DISCONNECTED]; the queue is as it was
    when the callback ran and the callback hands nothing to [socket.write].
    Whatever the channel reports afterwards, short of a connection, the
    transport does not become [CONNECTED] and the queue and the writes stay
    as they are. *)
Theorem unauthorized_peer_is_a_channel_error (st : transport) (c : channel)
    (authorizationError : string) :
  secure opts = true ->
  socket st = Some c ->
  let st' := (react (OnSecureConnect false authorizationError) st).1 in
  let reported := trace st ++ [EmitError (Error authorizationError)] in
  react (OnSecureConnect false authorizationError) st =
    react (OnError (Error authorizationError)) st
  /\ trace st' = reported ++ closing reported
  /\ socket st' = None
  /\ connectingPhase st' = Some DISCONNECTED
  /\ queue st' = queue st
  /\ closingPhase st' = closingPhase st
  /\ write_calls (trace st') = write_calls (trace st)
  /\ forall evs, Forall no_connection evs ->
       let st'' := run (map Channel evs) st' in
       connectingPhase st'' <> Some CONNECTED
       /\ queue st'' = queue st
       /\ write_calls (trace st'') = write_calls (trace st).
Proof.
  intros Hsecure Hc. cbv zeta.
  assert (Hreact : react (OnSecureConnect false authorizationError) st =
                   react (OnError (Error authorizationError)) st).
  { cbn [Transport.react]. by rewrite Hsecure, Hc. }
  rewrite Hreact. cbn [Transport.react fst].
  assert (Hshape : handleError (Error authorizationError) st =
    {| queue := queue st; socket := None; connectingPhase := Some DISCONNECTED;
       closingPhase := closingPhase st;
       trace := (trace st ++ [EmitError (Error authorizationError)])
                ++ closing (trace st ++ [EmitError (Error authorizationError)]) |}).
  { unfold Transport.handleError. rewrite (closeSocket_open _ c) by (state; done).
    state. reflexivity. }
  split; [done|]. split; [by rewrite Hshape|]. split; [by rewrite Hshape|].
  split; [by rewrite Hshape|]. split; [apply queue_handleError|].
  split; [by rewrite Hshape|]. split; [apply write_calls_handleError|].
  intros evs Hevs.
  destruct (run_no_connection evs (handleError (Error authorizationError) st) Hevs)
    as (Hp & Hq & Hw); [by rewrite Hshape|].
  split; [exact Hp|]. split.
  - by rewrite Hq, queue_handleError.
  - by rewrite Hw, write_calls_handleError.
Qed.

(** ** What holds in every reachable state *)

Lemma handleConnection_not_connecting st :
  connectingPhase (handleConnection st) <> Some CONNECTING.
Proof.
  unfold Transport.handleConnection.
  match goal with |- context [processItemsInQueue ?s] => set (connected := s) end.
  pose proof (drain_summary connected) as (_ & Hphase & _).
  assert (connectingPhase (processItemsInQueue connected) <> Some CONNECTING) as Hne.
  { destruct Hphase as [(_ & _ & ->)|(_ & _ & ->)]; subst connected; state; done. }
  destruct (closingPhase (processItemsInQueue connected)); [|done].
  state. unfold Transport.closeSocket.
  destruct (socket (processItemsInQueue connected)); [|done].
  destruct (end_throws _); state; done.
Qed.

Lemma connecting_has_channel_step st a :
  connecting_has_channel st -> connecting_has_channel (Transport.step opts write_throws end_throws st a).
Proof.
  intros Hinv. destruct a as [items| |ev]; cbn [Transport.step].
  - unfold Transport.consume.
    destruct (closingPhase st) eqn:Hcl; [exact Hinv|]. state.
    destruct (connectingPhase st) as [[| |]|] eqn:Hp; cbn [fst].
    + intros _ Hnull. state. destruct (Hinv Hp Hnull) as [Hclosed _]. congruence.
    + match goal with |- context [processItemsInQueue ?s] => set (queued := s) end.
      pose proof (drain_summary queued) as (_ & Hphase & _).
      intros Hconnecting.
      destruct Hphase as [(_ & _ & Hsame)|(_ & _ & Hsame)];
        rewrite Hsame in Hconnecting; subst queued; state; congruence.
    + unfold connect. state. intros _ [=].
    + unfold connect. state. intros _ [=].
  - unfold Transport.transport_end.
    destruct (socket st) as [c|] eqn:Hc; [|exact Hinv]. state.
    destruct (queue st) as [|item rest] eqn:Hq.
    + intros _ _. state. split; [done|]. by rewrite queue_closeSocket.
    + destruct (connectingPhase st) as [[| |]|] eqn:Hp; cbn [fst]; state.
      * rewrite Hc. intros _ [=].
      * rewrite connectingPhase_closeSocket.
        match goal with |- context [processItemsInQueue ?s] => set (closing_st := s) end.
        pose proof (drain_summary closing_st) as (_ & Hphase & _).
        intros Hconnecting.
        destruct Hphase as [(_ & _ & Hsame)|(_ & _ & Hsame)];
          rewrite Hsame in Hconnecting; subst closing_st; state; congruence.
      * rewrite connectingPhase_closeSocket.
        match goal with |- context [processItemsInQueue ?s] => set (closing_st := s) end.
        pose proof (drain_summary closing_st) as (_ & Hphase & _).
        intros Hconnecting.
        destruct Hphase as [(_ & _ & Hsame)|(_ & _ & Hsame)];
          rewrite Hsame in Hconnecting; subst closing_st; state; congruence.
      * rewrite connectingPhase_closeSocket.
        match goal with |- context [processItemsInQueue ?s] => set (closing_st := s) end.
        pose proof (drain_summary closing_st) as (_ & Hphase & _).
        intros Hconnecting.
        destruct Hphase as [(_ & _ & Hsame)|(_ & _ & Hsame)];
          rewrite Hsame in Hconnecting; subst closing_st; state; congruence.
  - destruct ev as [|authorized authorizationError|e|]; cbn [Transport.react fst].
    + intros Hconnecting. by destruct (handleConnection_not_connecting st).
    + destruct (secure opts); [|exact Hinv].
      destruct (socket st) eqn:Hc; [|exact Hinv]. cbn [fst].
      unfold Transport.handleSecureConnection. destruct authorized; cbn [negb].
      * intros Hconnecting. by destruct (handleConnection_not_connecting st).
      * unfold Transport.handleError. state. intros [=].
    + unfold Transport.handleError. state. intros [=].
    + unfold Transport.handleClose. state. intros [=].
Qed.

Lemma reachable_connecting_has_channel st : reachable st -> connecting_has_channel st.
Proof.
  intros [acts ->]. induction acts as [|a acts IH] using rev_ind.
  - intros [=].
  - unfold Transport.run in *. rewrite foldl_app. cbn [foldl].
    by apply connecting_has_channel_step.
Qed.

(** ** Ending *)

(** C4: [end()] is called while connecting with entries pending. The call
    only asks for the close: the closing phase is [CLOSING], the queue and
    the channel are untouched, nothing is written. When the connection then
    completes, the lines handed to [socket.write] are those of the pending
    entries from the front, in order, and all of them when no write fails;
    the channel is closed after them and the closing phase is [CLOSED]. *)
Theorem end_while_connecting_defers_close (st : transport) :
  reachable st ->
  connectingPhase st = Some CONNECTING ->
  queue st <> [] ->
  let st1 := (transport_end st).1 in
  (exists c, socket st = Some c)
  /\ trace st1 =
       trace st ++ [ConsoleLog "end while still connecting and data pending"; EmitEnd]
  /\ closingPhase st1 = Some CLOSING
  /\ queue st1 = queue st
  /\ socket st1 = socket st
  /\ connectingPhase st1 = Some CONNECTING
  /\ let st2 := handleConnection st1 in
     closingPhase st2 = Some CLOSED
     /\ socket st2 = None
     /\ (exists n, write_calls (trace st2) = write_calls (trace st1) ++ map line (take n (queue st)))
     /\ (all_written (queue st) (trace st1) = true ->
         trace st2 = trace st1 ++ written (queue st) ++ closing (trace st1 ++ written (queue st))
         /\ queue st2 = []
         /\ connectingPhase st2 = Some CONNECTED).
Proof.
  intros Hreach Hp Hq st1.
  destruct (socket st) as [c|] eqn:Hc; cycle 1.
  { destruct (reachable_connecting_has_channel st Hreach Hp Hc) as [_ Hempty]. done. }
  assert (Hst1 : st1 =
    {| queue := queue st; socket := Some c; connectingPhase := Some CONNECTING;
       closingPhase := Some CLOSING;
       trace := trace st ++ [ConsoleLog "end while still connecting and data pending"; EmitEnd] |}).
  { subst st1. unfold Transport.transport_end. rewrite Hc. state.
    destruct (queue st); [done|]. rewrite Hp. state. rewrite Hc.
    by rewrite <- app_assoc. }
  clearbody st1. subst st1. state.
  split; [by exists c|]. do 5 (split; [done|]).
  unfold Transport.handleConnection.
  match goal with |- context [processItemsInQueue ?s] => set (connected := s) end.
  pose proof (drain_summary connected) as (Hclosing & _ & Hprefix & _).
  rewrite Hclosing. subst connected. state.
  split; [done|]. split; [apply socket_closeSocket|]. split.
  - by rewrite write_calls_closeSocket.
  - intros Hall. unfold Transport.processItemsInQueue. state.
    rewrite (drain_written _ _ c) by done.
    rewrite (closeSocket_open _ c) by done. state. by rewrite <- app_assoc.
Qed.

(** C5, as the code has it: [end()] does nothing exactly when no channel is
    open at the call, be it that none was ever opened or that the last one
    was closed. With a channel open it sets the closing phase: [CLOSING]
    when entries are pending while connecting, [CLOSED] otherwise, and then
    the channel is closed first; the ['end'] notification comes last. *)
Theorem end_does_nothing_iff_no_channel_open (st : transport) :
  let st' := (transport_end st).1 in
  (transport_end st).2 = None
  /\ (st' = st <-> socket st = None)
  /\ (socket st <> None ->
      (closingPhase st' = Some CLOSING <->
         queue st <> [] /\ connectingPhase st = Some CONNECTING)
      /\ (closingPhase st' = Some CLOSED <->
            ~ (queue st <> [] /\ connectingPhase st = Some CONNECTING))
      /\ exists evs,
           trace st' = trace st ++ evs ++ [EmitEnd]
           /\ (closingPhase st' = Some CLOSED ->
               socket st' = None /\ exists thrown, SocketEnd thrown ∈ evs)).
Proof.
  cbv zeta. unfold Transport.transport_end.
  destruct (socket st) as [c|] eqn:Hc; cbn [fst snd]; cycle 1.
  { split; [done|]. split; [done|]. intros Hne. done. }
  split; [done|].
  set (asked := set_closingPhase CLOSING st).
  assert (queue asked = queue st) as Hq by done.
  assert (socket asked = Some c) as Hsocket by done.
  assert (connectingPhase asked = connectingPhase st) as Hphase by done.
  assert (trace asked = trace st) as Htrace by done.
  assert (closingPhase asked = Some CLOSING) as Hasked by done.
  clearbody asked. rewrite Hq, Hphase.
  assert (Hclose_now :
    exists evs, trace (closeSocket asked) = trace st ++ evs
                /\ exists thrown, SocketEnd thrown ∈ evs).
  { rewrite (closeSocket_open _ c) by done. state. rewrite Htrace.
    eexists. split; [reflexivity|]. unfold Transport.closing.
    destruct (end_throws _); eexists; apply list_elem_of_here. }
  assert (Hdrain_close :
    exists evs, trace (closeSocket (processItemsInQueue asked)) = trace st ++ evs
                /\ exists thrown, SocketEnd thrown ∈ evs).
  { pose proof (drain_summary asked) as (_ & _ & _ & evs & Htr & Hended).
    destruct (socket (processItemsInQueue asked)) as [c'|] eqn:Hc'.
    - rewrite (closeSocket_open _ c') by done. state. rewrite Htr, Htrace.
      eexists. split; [rewrite <- app_assoc; reflexivity|].
      unfold Transport.closing.
      destruct (end_throws _); eexists; rewrite elem_of_app; right;
        apply list_elem_of_here.
    - rewrite closeSocket_null by done. exists evs. split; [by rewrite Htr, Htrace|].
      apply Hended; [by rewrite Hsocket|done]. }
  assert (Hmain :
    let st' := record EmitEnd
      match queue st with
      | [] => set_closingPhase CLOSED (closeSocket asked)
      | _ :: _ =>
          match connectingPhase st with
          | Some CONNECTING =>
              record (ConsoleLog "end while still connecting and data pending") asked
          | _ => set_closingPhase CLOSED (closeSocket (processItemsInQueue asked))
          end
      end in
    (closingPhase st' = Some CLOSING <-> queue st <> [] /\ connectingPhase st = Some CONNECTING)
    /\ (closingPhase st' = Some CLOSED <-> ~ (queue st <> [] /\ connectingPhase st = Some CONNECTING))
    /\ exists evs,
         trace st' = trace st ++ evs ++ [EmitEnd]
         /\ (closingPhase st' = Some CLOSED ->
             socket st' = None /\ exists thrown, SocketEnd thrown ∈ evs)).
  { cbv zeta.
    assert (Hclosed : forall s,
      let st' := record EmitEnd (set_closingPhase CLOSED (closeSocket s)) in
      (exists evs, trace (closeSocket s) = trace st ++ evs
                   /\ exists thrown, SocketEnd thrown ∈ evs) ->
      closingPhase st' = Some CLOSED
      /\ exists evs,
           trace st' = trace st ++ evs ++ [EmitEnd]
           /\ (closingPhase st' = Some CLOSED ->
               socket st' = None /\ exists thrown, SocketEnd thrown ∈ evs)).
    { intros s st' (evs & Htr & Hend). subst st'. state. split; [done|].
      exists evs. split; [by rewrite Htr, <- app_assoc|].
      intros _. split; [apply socket_closeSocket|exact Hend]. }
    destruct (queue st) as [|item rest].
    - destruct (Hclosed asked Hclose_now) as [Hcl Hevs].
      split; [rewrite Hcl; split; [done|intros [? _]; done]|].
      split; [split; [intros _ [? _]; done|done]|]. exact Hevs.
    - destruct (connectingPhase st) as [[| |]|].
      + state. rewrite Hasked, Htrace.
        split; [done|]. split; [split; [done|intros Hno; by destruct Hno]|].
        eexists [_]. split; [by rewrite <- app_assoc|]. done.
      + destruct (Hclosed _ Hdrain_close) as [Hcl Hevs].
        split; [rewrite Hcl; split; [done|intros [_ [=]]]|].
        split; [split; [intros _ [_ [=]]|done]|]. exact Hevs.
      + destruct (Hclosed _ Hdrain_close) as [Hcl Hevs].
        split; [rewrite Hcl; split; [done|intros [_ [=]]]|].
        split; [split; [intros _ [_ [=]]|done]|]. exact Hevs.
      + destruct (Hclosed _ Hdrain_close) as [Hcl Hevs].
        split; [rewrite Hcl; split; [done|intros [_ [=]]]|].
        split; [split; [intros _ [_ [=]]|done]|]. exact Hevs. }
  split; [|intros _; exact Hmain].
  split; [|done]. intros Heq. exfalso.
  destruct Hmain as (_ & _ & evs & Htr & _).
  apply (f_equal trace) in Heq. rewrite Htr in Heq.
  apply (f_equal length) in Heq. rewrite !length_app in Heq. cbn in Heq. lia.
Qed.

End Facts.

(** ** The statements at concrete transports *)

(** Three entries are queued while connecting; the write of the second one
    raises [EPIPE]. *)
Lemma write_failure_requeues_at_front_witness :
  queue
    (Transport.processItemsInQueue plain_options
       (write_fails_on (createLogLine ["b"] plain_options) (Error "EPIPE")) reliable_end
       (Transport.run plain_options
          (write_fails_on (createLogLine ["b"] plain_options) (Error "EPIPE")) reliable_end
          (map CallConsume [["a"]; ["b"]; ["c"]]) initial)) =
  [["b"]; ["c"]].
Proof.
  apply (write_failure_requeues_at_front plain_options
           (write_fails_on (createLogLine ["b"] plain_options) (Error "EPIPE")) reliable_end
           (Transport.run plain_options
              (write_fails_on (createLogLine ["b"] plain_options) (Error "EPIPE")) reliable_end
              (map CallConsume [["a"]; ["b"]; ["c"]]) initial)
           {| ch_secure := false; ch_port := DEFAULT_LE_PORT; ch_host := DEFAULT_LE_HOST |}
           [["a"]] ["b"] [["c"]] (Error "EPIPE")); reflexivity.
Defined.

Lemma consume_connects_once_and_drains_fifo_witness :
  attempts
    (trace (Transport.run plain_options reliable_write reliable_end
              (map CallConsume [["a"]; ["b"]]) initial)) =
  [DEFAULT_LE_HOST].
Proof.
  pose proof (consume_connects_once_and_drains_fifo plain_options reliable_write reliable_end
                initial ["a"] [["b"]] (or_introl eq_refl) eq_refl) as Hthm.
  cbv zeta in Hthm. destruct Hthm as (_ & Hattempts & _). exact Hattempts.
Defined.

Lemma end_while_connecting_defers_close_witness :
  closingPhase
    (Transport.handleConnection plain_options reliable_write reliable_end
       (Transport.transport_end plain_options reliable_write reliable_end
          (Transport.run plain_options reliable_write reliable_end
             [CallConsume ["a"]] initial)).1) =
  Some CLOSED.
Proof.
  pose proof (end_while_connecting_defers_close plain_options reliable_write reliable_end
                (Transport.run plain_options reliable_write reliable_end
                   [CallConsume ["a"]] initial)
                (ex_intro _ [CallConsume ["a"]] eq_refl) eq_refl) as Hthm.
  cbv zeta in Hthm.
  destruct Hthm as (_ & _ & _ & _ & _ & _ & Hclosed & _); [discriminate|].
  exact Hclosed.
Defined.

Lemma unauthorized_peer_is_a_channel_error_witness :
  connectingPhase
    (Transport.react secure_options reliable_write reliable_end
       (OnSecureConnect false "CERT_UNTRUSTED")
       (Transport.run secure_options reliable_write reliable_end
          [CallConsume ["a"]] initial)).1 =
  Some DISCONNECTED.
Proof.
  pose proof (unauthorized_peer_is_a_channel_error secure_options reliable_write reliable_end
                (Transport.run secure_options reliable_write reliable_end
                   [CallConsume ["a"]] initial)
                {| ch_secure := true; ch_port := DEFAULT_LE_PORT_SECURE; ch_host := DEFAULT_LE_HOST |}
                "CERT_UNTRUSTED" eq_refl eq_refl) as Hthm.
  cbv zeta in Hthm. destruct Hthm as (_ & _ & _ & Hphase & _). exact Hphase.
Defined.

(** A channel is opened and then lost on an error: a channel has been
    opened, and still [end()] does nothing. *)
Lemma end_after_channel_error_does_nothing :
  ~ (forall acts : list action,
       let st := Transport.run plain_options reliable_write reliable_end acts initial in
       (Transport.transport_end plain_options reliable_write reliable_end st).1 = st
       <-> attempts (trace st) = []).
Proof.
  intros Hclaim.
  specialize (Hclaim [CallConsume ["a"]; Channel (OnError (Error "ECONNREFUSED"))]).
  cbv zeta in Hclaim. destruct Hclaim as [Hnoop _].
  specialize (Hnoop eq_refl). discriminate Hnoop.
Qed.

(** C6: a secure channel whose peer is not authorized, with the events in
    the order a TLS socket gives them: ['connect'] when the connection is
    made, the secure callback when the handshake is over.
    [handleConnection] is registered for ['connect'] on every socket, also
    on a secure one. So the transport is [CONNECTED] and has written the
    pending entry before the callback looks at the authorization: when the
    authorization error is notified, the entry has left the queue and has
    been handed to [socket.write]. *)
Theorem unauthorized_peer_is_served_on_connect :
  let connected :=
    Transport.run secure_options reliable_write reliable_end
      [CallConsume ["a"]; Channel OnConnect] initial in
  let st :=
    (Transport.react secure_options reliable_write reliable_end
       (OnSecureConnect false "CERT_UNTRUSTED") connected).1 in
  socket connected =
    Some {| ch_secure := true; ch_port := DEFAULT_LE_PORT_SECURE; ch_host := DEFAULT_LE_HOST |}
  /\ connectingPhase connected = Some CONNECTED
  /\ write_calls (trace connected) = ["tokena" +:+ newline]
  /\ queue connected = []
  /\ errors (trace st) = [Error "CERT_UNTRUSTED"]
  /\ write_calls (trace st) = ["tokena" +:+ newline]
  /\ queue st = []
  /\ connectingPhase st = Some DISCONNECTED.
Proof. vm_compute. repeat split. Qed.

(** ** Scenarios *)

(** Two entries are consumed, the channel connects, a third entry follows:
    one attempt, three writes in the order of the calls. *)
Example scenario_connect_and_drain :
  let st :=
    Transport.run plain_options reliable_write reliable_end
      [CallConsume ["ts"; "info"; "t1"]; CallConsume ["ts"; "err"; "t2"];
       Channel OnConnect; CallConsume ["ts"; "crit"; "t3"]] initial in
  write_calls (trace st) =
    ["tokents info t1" +:+ newline; "tokents err t2" +:+ newline; "tokents crit t3" +:+ newline]
  /\ attempts (trace st) = [DEFAULT_LE_HOST]
  /\ queue st = []
  /\ connectingPhase st = Some CONNECTED.
Proof. vm_compute. repeat split. Qed.

(** [end()] while connecting with an entry pending, then the connection
    completes: the entry is written, then the channel is closed. *)
Example scenario_deferred_close :
  trace
    (Transport.run plain_options reliable_write reliable_end
       [CallConsume ["a"]; CallEnd; Channel OnConnect] initial) =
  [EmitConnect DEFAULT_LE_HOST DEFAULT_LE_PORT "token";
   SocketOpen false DEFAULT_LE_PORT DEFAULT_LE_HOST;
   ConsoleLog "end while still connecting and data pending";
   EmitEnd;
   EmitLog ("tokena" +:+ newline);
   SocketWrite ("tokena" +:+ newline) None;
   SocketEnd None].
Proof. vm_compute. reflexivity. Qed.

End TransportFacts.

(** * The two components together *)

Module WiringFacts.

Import Wiring.

(** A logger on its default transport: the entry is queued and a connection
    attempt starts; when the channel connects, one line goes to the socket:
    the token, then the fields joined by spaces, then a newline. *)
Example logged_entry_reaches_the_socket :
  let transport := LogentriesTransport Transport.plain_options
                     Transport.reliable_write Transport.reliable_end in
  let lg :=
    (@Logger.log _ transport (fun _ => "") 0 Logger.test_options
       "info" (Prim (Str "t1")) [] Logger.test_runtime (Logger.create Transport.initial)).2 in
  let lg' :=
    on_channel Transport.plain_options Transport.reliable_write Transport.reliable_end
      Transport.OnConnect lg in
  Logger.trace lg = [Logger.Consume [Logger.FIX_TIMESTAMP_ISO_STRING; "info"; "t1"]]
  /\ Transport.queue (Logger.transport lg) = [[Logger.FIX_TIMESTAMP_ISO_STRING; "info"; "t1"]]
  /\ Transport.connectingPhase (Logger.transport lg) = Some Transport.CONNECTING
  /\ Transport.write_calls (Transport.trace (Logger.transport lg')) =
       ["token2015-05-17T15:26:17.231Z info t1" +:+ Transport.newline]
  /\ Transport.queue (Logger.transport lg') = [].
Proof. vm_compute. repeat split. Qed.

(** After [end()] the transport refuses entries, and the logger notifies
    what [consume] raised. *)
Example log_after_end_is_notified :
  let transport := LogentriesTransport Transport.plain_options
                     Transport.reliable_write Transport.reliable_end in
  let lg :=
    @Logger.run _ transport (fun _ => "") 0 Logger.test_options
      [Logger.CallLog "info" (Prim (Str "t1")) [] Logger.test_runtime;
       Logger.CallEnd Logger.test_runtime;
       Logger.CallLog "info" (Prim (Str "t2")) [] Logger.test_runtime]
      (Logger.create Transport.initial) in
  Logger.notified (Logger.trace lg) = [Error "Transport is already closed"]
  /\ Transport.queue (Logger.transport lg) = [[Logger.FIX_TIMESTAMP_ISO_STRING; "info"; "t1"]].
Proof. vm_compute. repeat split. Qed.

(** Only the second argument of [log] is cleaned of newlines: a newline in
    a further argument reaches the socket and splits the line. *)
Example further_argument_keeps_its_newline :
  let transport := LogentriesTransport Transport.plain_options
                     Transport.reliable_write Transport.reliable_end in
  let lg :=
    (@Logger.log _ transport (fun _ => "") 0 Logger.test_options
       "info" (Prim (Str "a")) ["b" +:+ Transport.newline +:+ "c"] Logger.test_runtime
       (Logger.create Transport.initial)).2 in
  let lg' :=
    on_channel Transport.plain_options Transport.reliable_write Transport.reliable_end
      Transport.OnConnect lg in
  Transport.write_calls (Transport.trace (Logger.transport lg')) =
    ["token2015-05-17T15:26:17.231Z info a b" +:+ Transport.newline +:+ "c" +:+ Transport.newline].
Proof. vm_compute. reflexivity. Qed.

End WiringFacts.

(** * More properties of the logger *)

Module LoggerExtras.

Import Logger.

(** ** Texts *)

Lemma string_app_assoc (a b c : string) : (a +:+ b) +:+ c = a +:+ b +:+ c.
Proof.
  induction a as [|ch a IH]; [reflexivity|].
  change (String ch ((a +:+ b) +:+ c) = String ch (a +:+ b +:+ c)). by rewrite IH.
Qed.

Lemma string_app_empty_r (a : string) : a +:+ "" = a.
Proof.
  induction a as [|ch a IH]; [reflexivity|].
  change (String ch (a +:+ "") = String ch a). by rewrite IH.
Qed.

Lemma has_newline_app (a b : string) :
  has_newline (a +:+ b) = has_newline a || has_newline b.
Proof.
  induction a as [|ch a IH]; simpl; [reflexivity|].
  rewrite IH. by rewrite orb_assoc.
Qed.

Lemma replace_newlines_app (a b : string) :
  replace_newlines (a +:+ b) = replace_newlines a +:+ replace_newlines b.
Proof.
  induction a as [|ch a IH]; simpl; [reflexivity|].
  rewrite IH. by destruct (Ascii.eqb ch "010").
Qed.

Lemma has_newline_replace_newlines (s : string) :
  has_newline (replace_newlines s) = false.
Proof.
  induction s as [|ch s IH]; simpl; [reflexivity|].
  destruct (Ascii.eqb ch "010") eqn:Hch; simpl.
  - exact IH.
  - by rewrite Hch.
Qed.

(** What [convert] returns holds no newline. *)
Lemma convert_one_line (JSON_stringify : value -> string) (opts : options) data text :
  convert JSON_stringify opts data = Normal text -> has_newline text = false.
Proof.
  unfold convert.
  destruct data as [p|[iso|]|items|props]; cbn [toISOString]; intros [= <-];
    apply has_newline_replace_newlines.
Qed.


(** X2: the replacement touches nothing but newlines. A text without
    newline is not changed, the replacement of a concatenation is the
    concatenation of the replacements, and replacing twice is replacing
    once. *)
Theorem replace_newlines_keeps_other_text (a b : string) :
  (has_newline a = false -> replace_newlines a = a)
  /\ replace_newlines (a +:+ b) = replace_newlines a +:+ replace_newlines b
  /\ replace_newlines (replace_newlines a) = replace_newlines a.
Proof.
  assert (Hid : forall s, has_newline s = false -> replace_newlines s = s).
  { induction s as [|ch s IH]; simpl; [done|].
    destruct (Ascii.eqb ch "010"); simpl; [done|]. intros Hs. by rewrite IH. }
  split; [apply Hid|]. split; [apply replace_newlines_app|].
  apply Hid, has_newline_replace_newlines.
Qed.

(** ** The flattened text as the list of its pairs *)

(** Induction on values, with the items of a structure as smaller values. *)
Lemma value_induction (P : value -> Prop) :
  (forall p, P (Prim p)) ->
  (forall iso, P (Date iso)) ->
  (forall items, Forall P items -> P (Array items)) ->
  (forall props, Forall (fun kv => P kv.2) props -> P (Object props)) ->
  forall data, P data.
Proof.
  intros HPrim HDate HArray HObject. fix IH 1. intros [p|iso|items|props].
  - apply HPrim.
  - apply HDate.
  - apply HArray. induction items as [|v items IHitems]; constructor.
    + apply IH.
    + exact IHitems.
  - apply HObject. induction props as [|[key v] props IHprops]; constructor.
    + apply IH.
    + exact IHprops.
Qed.

Lemma pairs_text_app prefix pairs pairs' :
  pairs_text prefix (pairs ++ pairs') = pairs_text prefix pairs +:+ pairs_text prefix pairs'.
Proof.
  induction pairs as [|leaf pairs IH]; [reflexivity|].
  change (pair_text prefix leaf +:+ pairs_text prefix (pairs ++ pairs') =
          (pair_text prefix leaf +:+ pairs_text prefix pairs) +:+ pairs_text prefix pairs').
  by rewrite IH, string_app_assoc.
Qed.

Lemma pairs_text_under prefix key pairs :
  pairs_text prefix (map (under key) pairs) = pairs_text (prefix +:+ key +:+ ".") pairs.
Proof.
  induction pairs as [|[path p] pairs IH]; [reflexivity|].
  change (pair_text prefix (under key (path, p))
            +:+ pairs_text prefix (map (under key) pairs) =
          pair_text (prefix +:+ key +:+ ".") (path, p)
            +:+ pairs_text (prefix +:+ key +:+ ".") pairs).
  rewrite IH. f_equal. unfold pair_text, under. cbn [fst snd].
  by rewrite !string_app_assoc.
Qed.

(** What the callback of [flatten] appends for one key is the text of the
    pairs found under that key. *)
Lemma callback_pairs prefix key v :
  (forall prefix', flatten v prefix' = pairs_text prefix' (leaves v)) ->
  match v with
  | Prim p => prefix +:+ key +:+ "=" +:+ toString p +:+ " "
  | _ => flatten v (prefix +:+ key +:+ ".")
  end =
  pairs_text prefix
    match v with
    | Prim p => [(key, p)]
    | _ => map (under key) (leaves v)
    end.
Proof.
  intros IH. destruct v as [p|iso|items|props].
  - change (pairs_text prefix [(key, p)]) with (pair_text prefix (key, p) +:+ "").
    by rewrite string_app_empty_r.
  - rewrite pairs_text_under. apply IH.
  - rewrite pairs_text_under. apply IH.
  - rewrite pairs_text_under. apply IH.
Qed.

Lemma flatten_pairs_text (data : value) (prefix : string) :
  flatten data prefix = pairs_text prefix (leaves data).
Proof.
  revert prefix. induction data as [p|iso|items IH|props IH] using value_induction;
    intros prefix; try reflexivity.
  - cbn [flatten leaves forEach visit]. generalize 0%nat.
    induction IH as [|v items Hv _ IHitems]; intros n; [reflexivity|].
    rewrite pairs_text_app, <- IHitems. f_equal. by apply callback_pairs.
  - cbn [flatten leaves forEach visit].
    destruct (array_length props) as [length|].
    + generalize 0%nat. induction length as [|count IHcount]; intros index; [reflexivity|].
      rewrite pairs_text_app, <- IHcount. f_equal. clear IHcount.
      induction IH as [|[key v] own Hv _ IHown].
      * change (pairs_text prefix [(pretty index, Undefined)])
          with (pair_text prefix (pretty index, Undefined) +:+ "").
        by rewrite string_app_empty_r.
      * destruct (String.eqb key (pretty index)); [|exact IHown].
        by apply callback_pairs.
    + induction IH as [|[key v] props Hv _ IHprops]; [reflexivity|].
      rewrite pairs_text_app, <- IHprops. f_equal. by apply callback_pairs.
Qed.

(** X3: the flattened text of a value is the text of its primitive leaves,
    in the order [_.forEach] visits them: each leaf gives the prefix, the
    keys on the way to it joined by dots, an equals sign, the leaf as text
    and a space. Dates and empty structures have no leaf and give nothing;
    in an object with a [length] the leaves are those under the indices
    below the length, [undefined] where an index has no property. *)
Theorem flatten_is_the_text_of_the_leaves (data : value) (prefix : string) :
  flatten data prefix = pairs_text prefix (leaves data).
Proof. apply flatten_pairs_text. Qed.

Lemma string_app_empty (a b : string) : a +:+ b = "" -> a = "" /\ b = "".
Proof. destruct a; [done|discriminate]. Qed.

Lemma pair_text_not_empty prefix leaf rest : pair_text prefix leaf +:+ rest <> "".
Proof.
  intros Hempty. apply string_app_empty in Hempty as [Hpair _].
  unfold pair_text in Hpair.
  apply string_app_empty in Hpair as [_ Hpair].
  apply string_app_empty in Hpair as [_ Hpair]. discriminate Hpair.
Qed.

(** X4: the flattened text is empty exactly when no primitive leaf is
    visited: empty structures and dates, at any depth, contribute nothing,
    and every visited primitive leaf contributes something. An object with
    length [0] has no visited leaf, whatever its other properties. *)
Theorem flatten_empty_iff_no_leaf (data : value) (prefix : string) :
  (flatten data prefix = "" <-> leaves data = [])
  /\ (forall props, array_length props = Some 0%nat -> leaves (Object props) = []).
Proof.
  split.
  - rewrite flatten_pairs_text.
    destruct (leaves data) as [|leaf rest]; [done|].
    split; [|done]. intros Hempty. by destruct (pair_text_not_empty prefix leaf _ Hempty).
  - intros props Hlength. cbn [leaves visit]. by rewrite Hlength.
Qed.

(** ** The registry *)

(** X5: the registry of a logger is the registry the caller supplied, or
    the default one when none was supplied (the two are never merged),
    without the reserved method names: a reserved name is never a level, and
    every other name keeps its severity. *)
Theorem configure_omits_reserved_names_only (u : user_options) (name : string) :
  levels (configure u) !! name =
  if decide (name ∈ reserved) then None
  else match u_levels u with
       | Some supplied => supplied !! name
       | None => default_levels !! name
       end.
Proof.
  unfold configure, omit. cbn [levels].
  set (registry := default default_levels (u_levels u)).
  assert (match u_levels u with
          | Some supplied => supplied !! name
          | None => default_levels !! name
          end = registry !! name) as ->
    by (subst registry; by destruct (u_levels u)).
  apply option_eq. intros severity. rewrite map_lookup_filter_Some. cbn [fst].
  case_decide; [|tauto]. split; [tauto|done].
Qed.

(** ** The threshold *)

Section Threshold.

Context {T : Type} `{Transport T}.
Variable JSON_stringify : value -> string.
Variable stack : nat.
Variable opts : options.

Abbreviation log := (Logger.log JSON_stringify stack opts).
Abbreviation emit := (Logger.emit JSON_stringify opts).
Abbreviation logger_end := (Logger.logger_end JSON_stringify stack opts).
Abbreviation level := (Logger.level opts).
Abbreviation run := (Logger.run JSON_stringify stack opts).
Abbreviation entry := (Logger.entry JSON_stringify opts).
Abbreviation active_threshold := (Logger.active_threshold opts).

Lemma lookup_own name s : levels opts !! name = Some s -> lookup opts name = Some (Severity s).
Proof. intros Hs. unfold lookup. by rewrite Hs. Qed.

(** X6: the stored threshold name and the current level always agree.
    After any calls on a fresh logger, either no name is stored and the
    current level is [-1], or the stored name is not empty and the current
    level is what [opts.levels] holds under that name: the severity of a
    level, or the member that the registry inherits under that name.
    [level()] returns the stored name and changes nothing. *)
Theorem threshold_name_and_level_agree (t0 : T) (calls : list call) :
  let lg := run calls (create t0) in
  match currentLevelName lg with
  | None => currentLevel lg = Severity (-1)
  | Some name => name <> "" /\ lookup opts name = Some (currentLevel lg)
  end
  /\ level None lg = (Returned (currentLevelName lg), lg).
Proof.
  cbv zeta. split; [|reflexivity].
  induction calls as [|c calls IH] using rev_ind; [reflexivity|].
  unfold Logger.run in *. rewrite foldl_app. cbn [foldl].
  destruct c as [argLevel data more rt|newLevelName|rt]; cbn [Logger.step].
  - destruct (LoggerFacts.log_keeps JSON_stringify stack opts argLevel data more rt
                (foldl (step JSON_stringify stack opts) (create t0) calls)) as (-> & -> & _).
    exact IH.
  - unfold Logger.level.
    destruct newLevelName as [[|ch name]|]; cbn [truthy]; [exact IH| |exact IH].
    destruct (lookup opts (String ch name)) as [v|] eqn:Hv; cbn [snd]; [|exact IH].
    cbn. done.
  - destruct (LoggerFacts.logger_end_keeps JSON_stringify stack opts rt
                (foldl (step JSON_stringify stack opts) (create t0) calls)) as (-> & -> & _).
    exact IH.
Qed.

(** X7: [level] never calls the transport and never notifies; [log] and
    [end] never change the threshold, whether they return or throw. *)
Theorem level_and_log_keep_apart (lg : logger T) (newLevelName : option string)
    (argLevel : string) (data : value) (more : list string) (rt : nat -> runtime) :
  transport (level newLevelName lg).2 = transport lg
  /\ trace (level newLevelName lg).2 = trace lg
  /\ currentLevel (log argLevel data more rt lg).2 = currentLevel lg
  /\ currentLevelName (log argLevel data more rt lg).2 = currentLevelName lg
  /\ currentLevel (logger_end rt lg).2 = currentLevel lg
  /\ currentLevelName (logger_end rt lg).2 = currentLevelName lg.
Proof.
  split; [|split].
  - unfold Logger.level. destruct (truthy newLevelName); [|done].
    by destruct (lookup opts _).
  - unfold Logger.level. destruct (truthy newLevelName); [|done].
    by destruct (lookup opts _).
  - destruct (LoggerFacts.log_keeps JSON_stringify stack opts argLevel data more rt lg)
      as (Hlevel & Hname & _).
    destruct (LoggerFacts.logger_end_keeps JSON_stringify stack opts rt lg)
      as (Hlevel' & Hname' & _).
    done.
Qed.

(** A call that hands nothing new to the transport did not pass the
    filter. *)
Lemma handed_passes (lg : logger T) name s data more rt :
  levels opts !! name = Some s ->
  handed (trace (log name data more rt lg).2) <> handed (trace lg) ->
  le (currentLevel lg) (Severity s) = true.
Proof.
  intros Hs Hhanded. destruct (le _ _) eqn:Hle; [done|]. destruct Hhanded.
  unfold Logger.log.
  by rewrite (LoggerFacts.log_filtered JSON_stringify opts stack 0 lg name (Severity s))
    by (done || by apply lookup_own).
Qed.

Lemma le_Severity_trans current s s' :
  le current (Severity s) = true -> (s <= s')%Z -> le current (Severity s') = true.
Proof.
  destruct current as [c|text]; cbn; [|done].
  intros Hle%Z.leb_le Hs. apply Z.leb_le. lia.
Qed.

(** What a call that passes the filter hands over and notifies. *)
Lemma log_passed_trace (lg : logger T) argLevel s data more rt args :
  levels opts !! argLevel = Some s ->
  le (currentLevel lg) (Severity s) = true ->
  entry argLevel data more (rt 0%nat) = Normal args ->
  let sent := consume args (transport lg) in
  let result := log argLevel data more rt lg in
  (exists later, trace result.2 = trace lg ++ Consume args :: later)
  /\ (sent.2 = None -> result = (Normal tt,
        {| currentLevel := currentLevel lg;
           currentLevelName := currentLevelName lg;
           transport := sent.1;
           trace := trace lg ++ [Consume args] |}))
  /\ (emit_overridden opts = false ->
      result.1 = Normal tt
      /\ transport result.2 = sent.1
      /\ trace result.2 =
           trace lg ++ Consume args :: match sent.2 with Some e => [EmitError e] | None => [] end).
Proof.
  intros Hs Hle Hentry. cbv zeta. unfold Logger.log.
  rewrite (LoggerFacts.log_passed JSON_stringify opts stack 0 lg argLevel (Severity s)
             data more rt args) by (done || by apply lookup_own).
  destruct (consume args (transport lg)) as [t [err|]] eqn:Hsent; cbn [fst snd].
  - split; [|split; [done|]].
    + match goal with |- context [emit ?n ?k ?r ?e ?l] =>
        destruct (LoggerFacts.emit_keeps JSON_stringify opts n k r e l) as (_ & _ & evs & ->)
      end.
      cbn [trace]. exists evs. by rewrite <- app_assoc.
    + intros Hplain. rewrite LoggerFacts.emit_plain by done. cbn.
      repeat split. by rewrite <- app_assoc.
  - split; [by exists []|]. split; [done|]. intros _. done.
Qed.

(** X8: the filter is monotone in the severity. When a call of [log] with
    one level hands an entry to the transport, a call with a level of the
    same or a higher severity, made in the same state, passes the filter
    too: if its entry can be made, it is the next entry handed to the
    transport (alone, unless the transport raises and a level named [emit]
    has taken the place of the emitter's method); if making the entry
    throws, the exception goes to the caller and nothing is handed over. *)
Theorem filter_is_monotone (lg : logger T)
    (low high : string) (s_low s_high : Z)
    (data data' : value) (more more' : list string) (rt rt' : nat -> runtime) :
  levels opts !! low = Some s_low ->
  levels opts !! high = Some s_high ->
  (s_low <= s_high)%Z ->
  handed (trace (log low data more rt lg).2) <> handed (trace lg) ->
  match entry high data' more' (rt' 0%nat) with
  | Normal args =>
      exists later,
        handed (trace (log high data' more' rt' lg).2) = handed (trace lg) ++ args :: later
        /\ (emit_overridden opts = false \/ (consume args (transport lg)).2 = None -> later = [])
  | Abrupt e => log high data' more' rt' lg = (Abrupt e, lg)
  end.
Proof.
  intros Hlow Hhigh Hle Hhanded.
  assert (le (currentLevel lg) (Severity s_high) = true) as Hpass.
  { eapply le_Severity_trans; [|exact Hle]. by eapply handed_passes. }
  destruct (entry high data' more' (rt' 0%nat)) as [args|e] eqn:Hentry.
  - destruct (log_passed_trace lg high s_high data' more' rt' args Hhigh Hpass Hentry)
      as ((later & Hlater) & Hquiet & Hplain).
    exists (handed later). split.
    + rewrite Hlater. by rewrite LoggerFacts.handed_app.
    + intros [Hp|Hnone].
      * destruct (Hplain Hp) as (_ & _ & Htrace). rewrite Htrace in Hlater.
        apply app_inv_head in Hlater. injection Hlater as <-.
        by destruct (consume _ _).2.
      * rewrite (Hquiet Hnone) in Hlater. cbn in Hlater.
        apply app_inv_head in Hlater. by injection Hlater as <-.
  - unfold Logger.log.
    by rewrite (LoggerFacts.log_throws JSON_stringify opts stack 0 lg high (Severity s_high)
                  data' more' rt' e) by (done || by apply lookup_own).
Qed.

(** X20: the filter of [log], for the calls in which the entry can be made
    and the emitter's [emit] is in place. After any calls on a fresh logger,
    a call with a registered name passes exactly when no [level(name)] call
    has set a threshold or the severity is at least what the last one set
    (a threshold that is an inherited member lets no severity pass). A call
    that passes hands its entry to the transport once and notifies what the
    transport raises; a call that does not pass changes nothing. When the
    entry cannot be made, a call that passes throws and changes nothing.
    The unset threshold is the severity [-1], so the registry is taken with
    severities of at least [-1]. *)
Theorem log_hands_entry_iff_threshold (t0 : T) (calls : list call)
    (argLevel : string) (s : Z) (data : value) (more : list string) (rt : nat -> runtime) :
  emit_overridden opts = false ->
  map_Forall (fun _ severity => (-1 <= severity)%Z) (levels opts) ->
  levels opts !! argLevel = Some s ->
  let lg := run calls (create t0) in
  let result := log argLevel data more rt lg in
  let passes :=
    active_threshold calls = None
    \/ exists t, active_threshold calls = Some t /\ le t (Severity s) = true in
  (passes ->
   match entry argLevel data more (rt 0%nat) with
   | Normal args =>
       let sent := consume args (transport lg) in
       result.1 = Normal tt
       /\ transport result.2 = sent.1
       /\ trace result.2 =
            trace lg ++ Consume args :: match sent.2 with Some e => [EmitError e] | None => [] end
       /\ handed (trace result.2) = handed (trace lg) ++ [args]
   | Abrupt e => result = (Abrupt e, lg)
   end)
  /\ (~ passes -> result = (Normal tt, lg))
  /\ (handed (trace result.2) <> handed (trace lg) -> passes).
Proof.
  intros Hplain Hnonneg Hs lg result passes.
  assert (Hcur : currentLevel lg = default (Severity (-1)) (active_threshold calls))
    by apply LoggerFacts.currentLevel_run.
  assert (-1 <= s)%Z as Hs0 by exact (Hnonneg _ _ Hs).
  assert (Hiff : passes <-> le (currentLevel lg) (Severity s) = true).
  { subst passes. rewrite Hcur. destruct (active_threshold calls) as [t|]; cbn [default].
    - split; [intros [[=]|(t' & [= <-] & Hle)]; done|]. intros Hle. right. by exists t.
    - split; [|by left]. intros _. cbn. apply Z.leb_le. lia. }
  split; [|split].
  - intros Hpass%Hiff.
    destruct (entry argLevel data more (rt 0%nat)) as [args|e] eqn:Hentry.
    + destruct (log_passed_trace lg argLevel s data more rt args Hs Hpass Hentry)
        as (_ & _ & Hresult).
      destruct (Hresult Hplain) as (Hreturn & Htransport & Htrace).
      cbv zeta. subst result. split; [done|]. split; [done|]. split; [done|].
      rewrite Htrace, LoggerFacts.handed_app. cbn. by destruct (consume _ _).2.
    + subst result. unfold Logger.log.
      by rewrite (LoggerFacts.log_throws JSON_stringify opts stack 0 lg argLevel (Severity s)
                    data more rt e) by (done || by apply lookup_own).
  - intros Hnot. subst result. unfold Logger.log.
    apply (LoggerFacts.log_filtered JSON_stringify opts stack 0 lg argLevel (Severity s));
      [by apply lookup_own|].
    destruct (le _ _) eqn:Hle; [|done]. by destruct Hnot; apply Hiff.
  - intros Hhanded. apply Hiff. by eapply handed_passes.
Qed.

(** X21: a name that the registry neither has nor inherits, on a logger
    whose [emit] is the emitter's: [log] notifies exactly one error, with
    the message ["Unknown log level: "] followed by the name, returns, and
    does nothing else: the transport is not called and nothing is
    formatted, whatever the current level and the value. *)
Theorem unknown_level_is_notified_once (lg : logger T)
    (argLevel : string) (data : value) (more : list string) (rt : nat -> runtime) :
  emit_overridden opts = false ->
  levels opts !! argLevel = None ->
  inherited argLevel = None ->
  let result := log argLevel data more rt lg in
  result = (Normal tt, notify (Error ("Unknown log level: " +:+ argLevel)) lg)
  /\ trace result.2 = trace lg ++ [EmitError (Error ("Unknown log level: " +:+ argLevel))]
  /\ notified (trace result.2) =
       notified (trace lg) ++ [Error ("Unknown log level: " +:+ argLevel)]
  /\ handed (trace result.2) = handed (trace lg)
  /\ transport result.2 = transport lg.
Proof.
  intros Hplain Hown Hinherited. cbv zeta. unfold Logger.log.
  rewrite LoggerFacts.log_unknown by (unfold lookup; by rewrite Hown, Hinherited).
  rewrite LoggerFacts.emit_plain by done. cbn [snd].
  rewrite LoggerFacts.trace_notify, LoggerFacts.notified_app, LoggerFacts.handed_app. cbn.
  by rewrite app_nil_r.
Qed.

End Threshold.

Lemma filter_is_monotone_witness :
  exists later,
    handed (trace (Logger.log (fun _ => "") 0 default_options "crit" (Prim (Str "t5")) []
                     test_runtime createLogger).2) =
    handed (trace createLogger) ++ ["1970-01-01T00:00:00.000Z"; "crit"; "t5"] :: later.
Proof.
  pose proof (filter_is_monotone (fun _ => "") 0 default_options createLogger
                "err" "crit" 4 5 (Prim (Str "t4")) (Prim (Str "t5")) [] [] test_runtime
                test_runtime) as Hthm.
  destruct Hthm as (later & Hlater & _).
  - vm_compute. reflexivity.
  - vm_compute. reflexivity.
  - lia.
  - vm_compute. discriminate.
  - exists later. exact Hlater.
Defined.

Lemma log_hands_entry_iff_threshold_witness :
  Logger.log (fun _ => "") 0 default_options "info" (Prim (Str "t1")) [] test_runtime
    (Logger.run (fun _ => "") 0 default_options [CallLevel (Some "err")] createLogger) =
  (Normal tt, Logger.run (fun _ => "") 0 default_options [CallLevel (Some "err")] createLogger).
Proof.
  apply (log_hands_entry_iff_threshold (fun _ => "") 0 default_options []
           [CallLevel (Some "err")] "info" 1 (Prim (Str "t1")) [] test_runtime).
  - vm_compute. reflexivity.
  - exact LoggerFacts.default_severities.
  - vm_compute. reflexivity.
  - vm_compute. intros [[=]|(t & [= <-] & [=])].
Defined.

Lemma unknown_level_is_notified_once_witness :
  Logger.log (fun _ => "") 0 default_options "invalid" (Prim (Str "t1")) [] test_runtime
    createLogger =
  (Normal tt, notify (Error "Unknown log level: invalid") createLogger).
Proof.
  apply (unknown_level_is_notified_once (fun _ => "") 0 default_options createLogger
           "invalid" (Prim (Str "t1")) [] test_runtime); vm_compute; reflexivity.
Defined.

End LoggerExtras.

(** * More properties of the transport *)

Module TransportExtras.

Import Transport.
Import TransportFacts.

Section Extras.

Variable opts : options.
Variable write_throws : list event -> string -> option error.
Variable end_throws : list event -> option error.

Abbreviation closeSocket := (Transport.closeSocket end_throws).
Abbreviation processItemsInQueue := (Transport.processItemsInQueue opts write_throws end_throws).
Abbreviation handleConnection := (Transport.handleConnection opts write_throws end_throws).
Abbreviation handleError := (Transport.handleError end_throws).
Abbreviation handleClose := (Transport.handleClose end_throws).
Abbreviation react := (Transport.react opts write_throws end_throws).
Abbreviation consume := (Transport.consume opts write_throws end_throws).
Abbreviation transport_end := (Transport.transport_end opts write_throws end_throws).
Abbreviation step := (Transport.step opts write_throws end_throws).
Abbreviation run := (Transport.run opts write_throws end_throws).
Abbreviation reachable := (Transport.reachable opts write_throws end_throws).
Abbreviation accepted := (Transport.accepted opts write_throws end_throws).
Abbreviation written := (Transport.written opts).
Abbreviation closing := (Transport.closing end_throws).
Abbreviation line := (fun item => createLogLine item opts).
Abbreviation ledger := (Transport.ledger opts).

(** ** What a drain leaves *)

(** Either the whole queue is written, or the drain stops at an entry
    [item]: what was written before stays written, [item] and what was
    behind it are the queue, and the channel is gone. *)
Lemma drain_outcome st :
  processItemsInQueue st =
    {| queue := []; socket := socket st; connectingPhase := connectingPhase st;
       closingPhase := closingPhase st; trace := trace st ++ written (queue st) |}
  \/ exists done item rest evs,
       queue st = done ++ item :: rest
       /\ processItemsInQueue st =
            {| queue := item :: rest; socket := None;
               connectingPhase := Some DISCONNECTED; closingPhase := closingPhase st;
               trace := trace st ++ written done ++ evs |}
       /\ sent evs = []
       /\ attempts evs = []
       /\ targets evs = [].
Proof.
  unfold Transport.processItemsInQueue.
  destruct (socket st) as [c|] eqn:Hc.
  - destruct (all_written_cases opts write_throws (queue st) (trace st))
      as [Hall|(done & item & rest & e & Hq & Hall & Hfail)].
    + left. by rewrite (drain_written opts write_throws end_throws _ _ c).
    + right. exists done, item, rest. eexists. split; [exact Hq|].
      rewrite Hq, (drain_failure opts write_throws end_throws _ _ _ _ c e) by done.
      cbv zeta. split; [rewrite <- !app_assoc; reflexivity|].
      unfold Transport.closing, sent, attempts, targets.
      destruct (end_throws _); done.
  - destruct (queue st) as [|item rest] eqn:Hq.
    + left. cbn. destruct st; cbn in *. subst. by rewrite app_nil_r.
    + right. exists [], item, rest. eexists. split; [done|].
      rewrite (drain_null opts write_throws end_throws) by done.
      split; [reflexivity|]. done.
Qed.

Lemma sent_app tr tr' : sent (tr ++ tr') = sent tr ++ sent tr'.
Proof. apply omap_app. Qed.

Lemma sent_written items : sent (written items) = map line items.
Proof. induction items as [|item items IH]; [done|]. cbn. by rewrite <- IH. Qed.

Lemma attempts_written items : attempts (written items) = [].
Proof. induction items as [|item items IH]; [done|]. cbn. exact IH. Qed.

Lemma targets_app tr tr' : targets (tr ++ tr') = targets tr ++ targets tr'.
Proof. apply omap_app. Qed.

Lemma targets_written items : targets (written items) = [].
Proof. induction items as [|item items IH]; [done|]. cbn. exact IH. Qed.

Lemma ledger_processItemsInQueue st : ledger (processItemsInQueue st) = ledger st.
Proof.
  unfold Transport.ledger.
  destruct (drain_outcome st) as [->|(done & item & rest & evs & Hq & -> & Hsent & _)]; state.
  - by rewrite sent_app, sent_written, app_nil_r.
  - rewrite !sent_app, sent_written, Hsent, Hq, map_app, app_nil_r.
    by rewrite <- app_assoc.
Qed.

Lemma sent_closeSocket st : sent (trace (closeSocket st)) = sent (trace st).
Proof.
  unfold Transport.closeSocket. destruct (socket st); [|done].
  destruct (end_throws _); state; rewrite ?sent_app; cbn; by rewrite ?app_nil_r.
Qed.

Lemma ledger_closeSocket st : ledger (closeSocket st) = ledger st.
Proof. unfold Transport.ledger. by rewrite sent_closeSocket, queue_closeSocket. Qed.

Lemma ledger_record ev st : sent [ev] = [] -> ledger (record ev st) = ledger st.
Proof.
  intros Hev. unfold Transport.ledger. state. by rewrite sent_app, Hev, app_nil_r.
Qed.

Lemma ledger_handleConnection st : ledger (handleConnection st) = ledger st.
Proof.
  unfold Transport.handleConnection.
  destruct (closingPhase _).
  - change (ledger (closeSocket (processItemsInQueue (set_connectingPhase CONNECTED st)))
            = ledger st).
    by rewrite ledger_closeSocket, ledger_processItemsInQueue.
  - by rewrite ledger_processItemsInQueue.
Qed.

Lemma ledger_handleError e st : ledger (handleError e st) = ledger st.
Proof.
  unfold Transport.handleError.
  change (ledger (closeSocket (record (EmitError e) st)) = ledger st).
  by rewrite ledger_closeSocket, ledger_record.
Qed.

Lemma ledger_handleClose st : ledger (handleClose st) = ledger st.
Proof.
  unfold Transport.handleClose.
  change (ledger (closeSocket st) = ledger st). apply ledger_closeSocket.
Qed.

Lemma ledger_react ev st : ledger (react ev st).1 = ledger st.
Proof.
  destruct ev as [|authorized authorizationError|e|]; cbn [Transport.react].
  - apply ledger_handleConnection.
  - destruct (secure opts); [|done]. destruct (socket st); [|done].
    cbn [fst]. unfold Transport.handleSecureConnection.
    destruct authorized; cbn [negb];
      [apply ledger_handleConnection|apply ledger_handleError].
  - apply ledger_handleError.
  - apply ledger_handleClose.
Qed.

Lemma ledger_transport_end st : ledger (transport_end st).1 = ledger st.
Proof.
  unfold Transport.transport_end. destruct (socket st); [|done]. cbn [fst].
  rewrite ledger_record by done.
  change (queue (set_closingPhase CLOSING st)) with (queue st).
  change (connectingPhase (set_closingPhase CLOSING st)) with (connectingPhase st).
  destruct (queue st) as [|item rest].
  - change (ledger (closeSocket (set_closingPhase CLOSING st)) = ledger st).
    by rewrite ledger_closeSocket.
  - destruct (connectingPhase st) as [[| |]|].
    + by rewrite ledger_record.
    + change (ledger (closeSocket (processItemsInQueue (set_closingPhase CLOSING st)))
              = ledger st).
      by rewrite ledger_closeSocket, ledger_processItemsInQueue.
    + change (ledger (closeSocket (processItemsInQueue (set_closingPhase CLOSING st)))
              = ledger st).
      by rewrite ledger_closeSocket, ledger_processItemsInQueue.
    + change (ledger (closeSocket (processItemsInQueue (set_closingPhase CLOSING st)))
              = ledger st).
      by rewrite ledger_closeSocket, ledger_processItemsInQueue.
Qed.

Lemma ledger_connect st : ledger (connect opts st) = ledger st.
Proof. unfold connect, Transport.ledger. state. rewrite !sent_app. cbn. by rewrite !app_nil_r. Qed.

Lemma ledger_consume items st :
  ledger (consume items st).1 =
  ledger st ++ match closingPhase st with None => [line items] | Some _ => [] end.
Proof.
  unfold Transport.consume. destruct (closingPhase st) eqn:Hcl; [by rewrite app_nil_r|].
  set (queued := set_queue (queue st ++ [items]) st).
  assert (ledger queued = ledger st ++ [line items]) as Hqueued.
  { unfold Transport.ledger. subst queued. state. by rewrite map_app, app_assoc. }
  change (connectingPhase queued) with (connectingPhase st).
  destruct (connectingPhase st) as [[| |]|]; cbn [fst].
  - exact Hqueued.
  - by rewrite ledger_processItemsInQueue.
  - by rewrite ledger_connect.
  - by rewrite ledger_connect.
Qed.

(** X9: no entry is lost, written twice or written out of order. After any
    calls and channel events, the lines that [socket.write] took followed by
    the lines of the queue are the lines that were sent or queued before,
    followed by those of the entries that [consume] accepted since, in the
    order of the calls. *)
Theorem entries_are_sent_or_queued_in_order (acts : list action) (st : transport) :
  ledger (run acts st) = ledger st ++ map line (accepted acts st).
Proof.
  revert st. induction acts as [|a acts IH]; intros st; [by rewrite app_nil_r|].
  change (run (a :: acts) st) with (run acts (step st a)).
  rewrite IH. cbn [Transport.accepted]. rewrite map_app, app_assoc. f_equal.
  destruct a as [items| |ev]; cbn [Transport.step].
  - rewrite ledger_consume. by destruct (closingPhase st).
  - rewrite ledger_transport_end. by rewrite app_nil_r.
  - rewrite ledger_react. by rewrite app_nil_r.
Qed.

(** ** Once a close was asked for *)

Lemma closeSocket_shape st :
  closeSocket st =
  {| queue := queue st; socket := None; connectingPhase := connectingPhase st;
     closingPhase := closingPhase st; trace := trace (closeSocket st) |}.
Proof.
  unfold Transport.closeSocket. destruct (socket st) eqn:Hc.
  - destruct (end_throws _); reflexivity.
  - destruct st; cbn in *. by subst.
Qed.

(** The queue after a drain is a back part of the queue before. *)
Lemma queue_processItemsInQueue st :
  exists n, queue (processItemsInQueue st) = drop n (queue st).
Proof.
  destruct (drain_outcome st) as [->|(done & item & rest & evs & Hq & -> & _)]; state.
  - exists (length (queue st)). by rewrite drop_all.
  - exists (length done). by rewrite Hq, drop_app_length.
Qed.

Lemma closingPhase_processItemsInQueue st :
  closingPhase (processItemsInQueue st) = closingPhase st.
Proof.
  by destruct (drain_outcome st) as [->|(done & item & rest & evs & Hq & -> & _)].
Qed.

Lemma closing_step st a :
  closingPhase st <> None ->
  closingPhase (step st a) <> None
  /\ exists n, queue (step st a) = drop n (queue st).
Proof.
  intros Hcl. destruct a as [items| |ev]; cbn [Transport.step].
  - rewrite (consume_closing opts write_throws end_throws) by done.
    split; [done|]. by exists 0%nat.
  - unfold Transport.transport_end.
    destruct (socket st); cbn [fst]; [|split; [done|by exists 0%nat]].
    change (queue (set_closingPhase CLOSING st)) with (queue st).
    change (connectingPhase (set_closingPhase CLOSING st)) with (connectingPhase st).
    destruct (queue st) as [|item rest] eqn:Hq.
    + split; [done|]. exists 0%nat. state. by rewrite queue_closeSocket.
    + destruct (queue_processItemsInQueue (set_closingPhase CLOSING st)) as [n Hn].
      change (queue (set_closingPhase CLOSING st)) with (queue st) in Hn.
      rewrite Hq in Hn.
      destruct (connectingPhase st) as [[| |]|];
        [state; split; [done|by exists 0%nat]|..];
        (split; [state; done|]; exists n;
         change (queue (closeSocket (processItemsInQueue (set_closingPhase CLOSING st)))
                 = drop n (item :: rest));
         by rewrite queue_closeSocket).
  - assert (Hconn : closingPhase (handleConnection st) <> None
                    /\ exists n, queue (handleConnection st) = drop n (queue st)).
    { unfold Transport.handleConnection.
      rewrite closingPhase_processItemsInQueue.
      change (closingPhase (set_connectingPhase CONNECTED st)) with (closingPhase st).
      destruct (queue_processItemsInQueue (set_connectingPhase CONNECTED st)) as [n Hn].
      change (queue (set_connectingPhase CONNECTED st)) with (queue st) in Hn.
      destruct (closingPhase st); [|done]. split; [state; done|]. exists n.
      change (queue (closeSocket (processItemsInQueue (set_connectingPhase CONNECTED st)))
              = drop n (queue st)).
      by rewrite queue_closeSocket. }
    assert (Herr : forall e, closingPhase (handleError e st) <> None
                   /\ exists n, queue (handleError e st) = drop n (queue st)).
    { intros e. unfold Transport.handleError. state.
      rewrite closingPhase_closeSocket, queue_closeSocket. state.
      split; [done|by exists 0%nat]. }
    destruct ev as [|authorized authorizationError|e|]; cbn [Transport.react fst].
    + exact Hconn.
    + destruct (secure opts); [|split; [done|by exists 0%nat]].
      destruct (socket st); [|split; [done|by exists 0%nat]].
      cbn [fst]. unfold Transport.handleSecureConnection.
      destruct authorized; cbn [negb]; [exact Hconn|apply Herr].
    + apply Herr.
    + unfold Transport.handleClose. state.
      rewrite closingPhase_closeSocket, queue_closeSocket.
      split; [done|by exists 0%nat].
Qed.

(** X10: asking for the close cannot be undone. Once the closing phase is
    set, it stays set whatever is called and whatever the channel reports:
    every later [consume] raises ["Transport is already closed"] and leaves
    the transport as it is, no entry is accepted any more, and the queue can
    only lose entries at its front. *)
Theorem closing_phase_stays_set (st : transport) (acts : list action) :
  closingPhase st <> None ->
  let st' := run acts st in
  closingPhase st' <> None
  /\ accepted acts st = []
  /\ (exists n, queue st' = drop n (queue st))
  /\ forall items, consume items st' = (st', Some (Error "Transport is already closed")).
Proof.
  revert st. induction acts as [|a acts IH]; intros st Hcl; cbv zeta.
  - split; [done|]. split; [done|]. split; [by exists 0%nat|].
    intros items. by apply consume_closing.
  - change (run (a :: acts) st) with (run acts (step st a)).
    destruct (closing_step st a Hcl) as (Hcl' & n & Hn).
    destruct (IH (step st a) Hcl') as (Hset & Hacc & (m & Hm) & Hrefused).
    split; [exact Hset|]. split.
    + cbn [Transport.accepted]. rewrite Hacc, app_nil_r.
      destruct (closingPhase st); [|done]. by destruct a.
    + split; [|exact Hrefused]. exists (n + m)%nat. by rewrite Hm, Hn, drop_drop.
Qed.

(** ** What holds in every reachable state, continued *)

Lemma well_formed_no_channel st : socket st = None -> well_formed st.
Proof.
  intros Hc. unfold well_formed, channel_only_while_connecting, closed_has_no_channel,
    connected_has_nothing_pending. rewrite Hc. done.
Qed.

Lemma well_formed_closed (st : transport) :
  well_formed (set_closingPhase CLOSED (closeSocket st)).
Proof. apply well_formed_no_channel. state. apply socket_closeSocket. Qed.

Lemma well_formed_drained st :
  closingPhase st = None ->
  connectingPhase st = Some CONNECTED ->
  well_formed (processItemsInQueue st).
Proof.
  intros Hcl Hp.
  destruct (drain_outcome st) as [->|(done & item & rest & evs & Hq & -> & _)].
  - unfold well_formed, channel_only_while_connecting, closed_has_no_channel,
      connected_has_nothing_pending. state. rewrite Hcl, Hp. split; [by right|done].
  - by apply well_formed_no_channel.
Qed.

Lemma well_formed_handleConnection st : well_formed (handleConnection st).
Proof.
  unfold Transport.handleConnection.
  rewrite closingPhase_processItemsInQueue.
  change (closingPhase (set_connectingPhase CONNECTED st)) with (closingPhase st).
  destruct (closingPhase st) eqn:Hcl.
  - apply well_formed_closed.
  - by apply well_formed_drained.
Qed.

Lemma well_formed_handleError e st : well_formed (handleError e st).
Proof.
  apply well_formed_no_channel. unfold Transport.handleError. state.
  apply socket_closeSocket.
Qed.

Lemma well_formed_step st a : well_formed st -> well_formed (step st a).
Proof.
  intros Hwf. destruct a as [items| |ev]; cbn [Transport.step].
  - unfold Transport.consume. destruct (closingPhase st) eqn:Hcl; [exact Hwf|].
    set (queued := set_queue (queue st ++ [items]) st).
    change (connectingPhase queued) with (connectingPhase st).
    destruct (connectingPhase st) as [[| |]|] eqn:Hp; cbn [fst].
    + unfold well_formed, channel_only_while_connecting, closed_has_no_channel,
        connected_has_nothing_pending. subst queued. state. rewrite Hcl, Hp.
      split; [by left|done].
    + apply well_formed_drained; subst queued; state; done.
    + unfold well_formed, channel_only_while_connecting, closed_has_no_channel,
        connected_has_nothing_pending, connect. subst queued. state. rewrite Hcl.
      split; [by left|done].
    + unfold well_formed, channel_only_while_connecting, closed_has_no_channel,
        connected_has_nothing_pending, connect. subst queued. state. rewrite Hcl.
      split; [by left|done].
  - unfold Transport.transport_end. destruct (socket st) as [c|] eqn:Hc; [|exact Hwf].
    cbn [fst].
    change (queue (set_closingPhase CLOSING st)) with (queue st).
    change (connectingPhase (set_closingPhase CLOSING st)) with (connectingPhase st).
    destruct (queue st) as [|item rest].
    + apply well_formed_no_channel. state. apply socket_closeSocket.
    + destruct (connectingPhase st) as [[| |]|] eqn:Hp;
        [|apply well_formed_no_channel; state; apply socket_closeSocket..].
      unfold well_formed, channel_only_while_connecting, closed_has_no_channel,
        connected_has_nothing_pending. state. rewrite Hp.
      split; [by left|done].
  - destruct ev as [|authorized authorizationError|e|]; cbn [Transport.react fst].
    + apply well_formed_handleConnection.
    + destruct (secure opts); [|exact Hwf]. destruct (socket st); [|exact Hwf].
      cbn [fst]. unfold Transport.handleSecureConnection.
      destruct authorized; cbn [negb];
        [apply well_formed_handleConnection|apply well_formed_handleError].
    + apply well_formed_handleError.
    + apply well_formed_no_channel. unfold Transport.handleClose. state.
      apply socket_closeSocket.
Qed.

Lemma reachable_well_formed st : reachable st -> well_formed st.
Proof.
  intros [acts ->]. induction acts as [|a acts IH] using rev_ind.
  - by apply well_formed_no_channel.
  - unfold Transport.run in *. rewrite foldl_app. cbn [foldl].
    by apply well_formed_step.
Qed.

(** ** A closed transport *)

Lemma inert_step st a :
  closingPhase st = Some CLOSED ->
  socket st = None ->
  let st' := step st a in
  closingPhase st' = Some CLOSED
  /\ socket st' = None
  /\ queue st' = queue st
  /\ write_calls (trace st') = write_calls (trace st)
  /\ targets (trace st') = targets (trace st).
Proof.
  destruct st as [q sk p cl tr]. cbn [closingPhase socket]. intros -> ->. cbv zeta.
  assert (Hconn :
    let st' := handleConnection
                 {| queue := q; socket := None; connectingPhase := p;
                    closingPhase := Some CLOSED; trace := tr |} in
    closingPhase st' = Some CLOSED /\ socket st' = None /\ queue st' = q
    /\ write_calls (trace st') = write_calls tr /\ targets (trace st') = targets tr).
  { unfold Transport.handleConnection, Transport.processItemsInQueue. state.
    destruct q as [|item rest]; cbn.
    - done.
    - unfold write_calls, targets. rewrite !omap_app. cbn. by rewrite !app_nil_r. }
  assert (Herr : forall e,
    let st' := handleError e
                 {| queue := q; socket := None; connectingPhase := p;
                    closingPhase := Some CLOSED; trace := tr |} in
    closingPhase st' = Some CLOSED /\ socket st' = None /\ queue st' = q
    /\ write_calls (trace st') = write_calls tr /\ targets (trace st') = targets tr).
  { intros e. cbn. unfold write_calls, targets. rewrite !omap_app. cbn.
    by rewrite !app_nil_r. }
  destruct a as [items| |ev]; cbn [Transport.step].
  - done.
  - done.
  - destruct ev as [|authorized authorizationError|e|]; cbn [Transport.react fst].
    + exact Hconn.
    + destruct (secure opts); done.
    + apply Herr.
    + done.
Qed.

(** X11: a closed transport is inert. In every reachable state whose closing
    phase is [CLOSED] no channel is held, and from then on, whatever is
    called and whatever the channel reports, the closing phase stays
    [CLOSED], no channel is opened, [socket.write] is never called, the
    queue stays as it is (entries left in it are never sent), and [end()]
    changes nothing. *)
Theorem closed_transport_is_inert (st : transport) (acts : list action) :
  reachable st ->
  closingPhase st = Some CLOSED ->
  let st' := run acts st in
  socket st = None
  /\ closingPhase st' = Some CLOSED
  /\ socket st' = None
  /\ queue st' = queue st
  /\ write_calls (trace st') = write_calls (trace st)
  /\ targets (trace st') = targets (trace st)
  /\ transport_end st' = (st', None).
Proof.
  intros Hreach Hclosed. cbv zeta.
  assert (socket st = None) as Hc.
  { by apply (reachable_well_formed st Hreach). }
  split; [exact Hc|]. clear Hreach.
  assert (Hrun : closingPhase (run acts st) = Some CLOSED
                 /\ socket (run acts st) = None
                 /\ queue (run acts st) = queue st
                 /\ write_calls (trace (run acts st)) = write_calls (trace st)
                 /\ targets (trace (run acts st)) = targets (trace st)).
  { revert st Hclosed Hc. induction acts as [|a acts IH]; intros st Hclosed Hc; [done|].
    change (run (a :: acts) st) with (run acts (step st a)).
    destruct (inert_step st a Hclosed Hc) as (Hcl' & Hc' & Hq & Hw & Ht).
    destruct (IH _ Hcl' Hc') as (? & ? & ? & ? & ?).
    repeat split; congruence. }
  destruct Hrun as (Hcl' & Hc' & Hq & Hw & Ht).
  repeat split; try done.
  unfold Transport.transport_end. by rewrite Hc'.
Qed.

(** ** Channels *)

Lemma targets_closeSocket st : targets (trace (closeSocket st)) = targets (trace st).
Proof.
  unfold Transport.closeSocket. destruct (socket st); [|done].
  destruct (end_throws _); state; rewrite ?targets_app; cbn; by rewrite ?app_nil_r.
Qed.

Lemma targets_processItemsInQueue st :
  targets (trace (processItemsInQueue st)) = targets (trace st).
Proof.
  destruct (drain_outcome st) as [->|(done & item & rest & evs & Hq & -> & _ & _ & Hevs)]; state.
  - by rewrite targets_app, targets_written, app_nil_r.
  - by rewrite !targets_app, targets_written, Hevs, !app_nil_r.
Qed.

Lemma targets_handleConnection st : targets (trace (handleConnection st)) = targets (trace st).
Proof.
  unfold Transport.handleConnection. destruct (closingPhase _).
  - change (targets (trace (closeSocket (processItemsInQueue (set_connectingPhase CONNECTED st))))
            = targets (trace st)).
    by rewrite targets_closeSocket, targets_processItemsInQueue.
  - by rewrite targets_processItemsInQueue.
Qed.

Lemma targets_handleError e st : targets (trace (handleError e st)) = targets (trace st).
Proof.
  unfold Transport.handleError.
  change (targets (trace (closeSocket (record (EmitError e) st))) = targets (trace st)).
  rewrite targets_closeSocket. state. rewrite targets_app. cbn. by rewrite app_nil_r.
Qed.

Lemma targets_react ev st : targets (trace (react ev st).1) = targets (trace st).
Proof.
  destruct ev as [|authorized authorizationError|e|]; cbn [Transport.react].
  - apply targets_handleConnection.
  - destruct (secure opts); [|done]. destruct (socket st); [|done].
    cbn [fst]. unfold Transport.handleSecureConnection.
    destruct authorized; cbn [negb];
      [apply targets_handleConnection|apply targets_handleError].
  - apply targets_handleError.
  - unfold Transport.handleClose.
    change (targets (trace (closeSocket st)) = targets (trace st)).
    apply targets_closeSocket.
Qed.

Lemma targets_transport_end st :
  targets (trace (transport_end st).1) = targets (trace st).
Proof.
  unfold Transport.transport_end. destruct (socket st); [|done]. cbn [fst].
  change (queue (set_closingPhase CLOSING st)) with (queue st).
  change (connectingPhase (set_closingPhase CLOSING st)) with (connectingPhase st).
  assert (Hlast : forall x, targets (trace (record EmitEnd x)) = targets (trace x)).
  { intros x. state. rewrite targets_app. cbn. by rewrite app_nil_r. }
  rewrite Hlast.
  destruct (queue st) as [|item rest].
  - change (targets (trace (closeSocket (set_closingPhase CLOSING st))) = targets (trace st)).
    by rewrite targets_closeSocket.
  - destruct (connectingPhase st) as [[| |]|];
      [state; rewrite targets_app; cbn; by rewrite app_nil_r|..];
      (change (targets (trace (closeSocket (processItemsInQueue (set_closingPhase CLOSING st))))
               = targets (trace st));
       by rewrite targets_closeSocket, targets_processItemsInQueue).
Qed.

Lemma targets_consume items st :
  targets (trace (consume items st).1) =
  targets (trace st)
  ++ match closingPhase st, connectingPhase st with
     | None, (None | Some DISCONNECTED) => [Transport.target opts]
     | _, _ => []
     end.
Proof.
  unfold Transport.consume. destruct (closingPhase st); [by rewrite app_nil_r|].
  change (connectingPhase (set_queue (queue st ++ [items]) st)) with (connectingPhase st).
  destruct (connectingPhase st) as [[| |]|]; cbn [fst].
  - by rewrite app_nil_r.
  - rewrite targets_processItemsInQueue. by rewrite app_nil_r.
  - unfold connect, Transport.target. state. rewrite !targets_app. cbn.
    by rewrite app_nil_r.
  - unfold connect, Transport.target. state. rewrite !targets_app. cbn.
    by rewrite app_nil_r.
Qed.

(** X12: reconnection is driven by demand only. [end()] and the reactions
    to channel events (connect, secure connect, error, close) never open a
    channel; [consume] opens one exactly when it accepts the entry while
    the phase is [DISCONNECTED] or not yet set, and then opens one. *)
Theorem only_consume_opens_a_channel (st : transport)
    (items : list string) (ev : channel_event) :
  targets (trace (transport_end st).1) = targets (trace st)
  /\ targets (trace (react ev st).1) = targets (trace st)
  /\ targets (trace (consume items st).1) =
       targets (trace st)
       ++ match closingPhase st, connectingPhase st with
          | None, (None | Some DISCONNECTED) => [Transport.target opts]
          | _, _ => []
          end.
Proof.
  split; [apply targets_transport_end|]. split; [apply targets_react|apply targets_consume].
Qed.

(** X13: every channel is opened to the configured target. All connection
    attempts of a run go to one host and one port; the host is never empty
    and the port never zero: an absent or empty host in the options is
    replaced by [api.logentries.com], an absent or zero port by 20000 for a
    secure channel and 10000 otherwise. *)
Theorem every_attempt_goes_to_the_target (acts : list action) :
  let h := (Transport.target opts).1 in
  let p := (Transport.target opts).2 in
  Forall (fun t => t = (h, p)) (targets (trace (run acts initial)))
  /\ h <> ""
  /\ p <> 0%Z
  /\ (host opts = None \/ host opts = Some "" -> h = DEFAULT_LE_HOST)
  /\ (port opts = None \/ port opts = Some 0%Z ->
      p = if secure opts then DEFAULT_LE_PORT_SECURE else DEFAULT_LE_PORT)
  /\ (forall name, host opts = Some name -> name <> "" -> h = name)
  /\ (forall n, port opts = Some n -> n <> 0%Z -> p = n).
Proof.
  cbv zeta. split.
  - induction acts as [|a acts IH] using rev_ind; [constructor|].
    unfold Transport.run in *. rewrite foldl_app. cbn [foldl].
    destruct a as [items| |ev]; cbn [Transport.step].
    + rewrite targets_consume. apply Forall_app. split; [exact IH|].
      destruct (closingPhase _); [constructor|].
      destruct (connectingPhase _) as [[| |]|]; repeat constructor; by destruct (Transport.target opts).
    + by rewrite targets_transport_end.
    + by rewrite targets_react.
  - unfold Transport.target. cbn [fst snd].
    split; [by destruct (host opts) as [[|ch name]|]|].
    split; [destruct (port opts) as [[|n|n]|]; cbn; by destruct (secure opts)|].
    split; [by intros [-> | ->]|].
    split; [by intros [-> | ->]|].
    split.
    + intros name -> Hname. by destruct name.
    + intros n -> Hn. by destruct n.
Qed.

(** X14: a channel is held only while connecting or connected, and a new
    one is opened only when none is held. In every reachable state the
    socket is [null] unless the phase is [CONNECTING] or [CONNECTED], and a
    [consume] that opens a channel finds the socket [null]: no open channel
    is ever replaced without being closed. *)
Theorem no_channel_is_replaced (st : transport) (items : list string) :
  reachable st ->
  (socket st <> None ->
   connectingPhase st = Some CONNECTING \/ connectingPhase st = Some CONNECTED)
  /\ (targets (trace (consume items st).1) <> targets (trace st) -> socket st = None).
Proof.
  intros Hreach. destruct (reachable_well_formed st Hreach) as (Hchannel & _ & _).
  split; [exact Hchannel|].
  rewrite targets_consume. intros Hopened.
  destruct (socket st) as [c|] eqn:Hc; [exfalso|done].
  assert (connectingPhase st = Some CONNECTING \/ connectingPhase st = Some CONNECTED)
    as Hphase by (apply Hchannel; rewrite ?Hc; done).
  destruct Hopened. destruct (closingPhase st); [by rewrite app_nil_r|].
  destruct Hphase as [-> | ->]; by rewrite app_nil_r.
Qed.

(** X15: nothing waits while the transport is connected. In every reachable
    state with phase [CONNECTED] and a channel held, the queue is empty:
    what was queued has been written or has made the transport
    [DISCONNECTED]. *)
Theorem connected_transport_has_empty_queue (st : transport) :
  reachable st ->
  connectingPhase st = Some CONNECTED ->
  socket st <> None ->
  queue st = [].
Proof.
  intros Hreach. by destruct (reachable_well_formed st Hreach) as (_ & _ & Hpending).
Qed.

(** ** Consuming while connected *)

(** X16: on a connected transport an entry is written at once. In a
    reachable state with phase [CONNECTED], a channel held and no close
    asked for, [consume] does not raise and hands the line of the entry to
    [socket.write] in the same call. When the write goes through, the queue
    is empty again; when it raises, the error is notified, the entry is
    alone in the queue, the channel is closed, the phase is [DISCONNECTED]
    and no new channel is opened in that call. *)
Theorem consume_while_connected_writes_at_once (st : transport) (c : channel)
    (items : list string) :
  reachable st ->
  connectingPhase st = Some CONNECTED ->
  socket st = Some c ->
  closingPhase st = None ->
  let st' := (consume items st).1 in
  let thrown := write_throws (trace st ++ [EmitLog (line items)]) (line items) in
  (consume items st).2 = None
  /\ write_calls (trace st') = write_calls (trace st) ++ [line items]
  /\ targets (trace st') = targets (trace st)
  /\ match thrown with
     | None =>
         st' = {| queue := []; socket := Some c; connectingPhase := Some CONNECTED;
                  closingPhase := None;
                  trace := trace st ++ [EmitLog (line items); SocketWrite (line items) None] |}
     | Some e =>
         queue st' = [items]
         /\ socket st' = None
         /\ connectingPhase st' = Some DISCONNECTED
         /\ errors (trace st') =
              errors (trace st)
              ++ e :: errors (closing (trace st ++ [EmitLog (line items);
                                                   SocketWrite (line items) (Some e);
                                                   EmitError e]))
     end.
Proof.
  intros Hreach Hp Hc Hcl. cbv zeta.
  assert (queue st = []) as Hq.
  { destruct (reachable_well_formed st Hreach) as (_ & _ & Hpending).
    apply Hpending; [done|by rewrite Hc]. }
  unfold Transport.consume. rewrite Hcl. state. rewrite Hp, Hq. cbn [fst snd app].
  unfold Transport.processItemsInQueue. state.
  rewrite (drain_step opts write_throws end_throws _ _ _ c) by done. state.
  rewrite Hcl.
  destruct (write_throws _ _) as [e|]; cbv zeta; cbn [Transport.drain]; state.
  - split; [done|]. split.
    { rewrite !write_calls_app, write_calls_closing. cbn. by rewrite app_nil_r. }
    split.
    { rewrite !targets_app. unfold Transport.closing.
      destruct (end_throws _); cbn; by rewrite !app_nil_r. }
    split; [done|]. split; [done|]. split; [done|].
    rewrite !errors_app. cbn. by rewrite <- app_assoc.
  - split; [done|]. split; [by rewrite write_calls_app|].
    split; [|done]. rewrite targets_app. cbn. by rewrite app_nil_r.
Qed.

(** ** The line on the wire *)

Lemma has_newline_concat sep fields :
  has_newline sep = false ->
  Forall (fun field => has_newline field = false) fields ->
  has_newline (String.concat sep fields) = false.
Proof.
  intros Hsep Hfields. induction Hfields as [|field fields Hfield Hfields IH]; [done|].
  destruct fields as [|next fields]; [exact Hfield|].
  change (has_newline (field +:+ sep +:+ String.concat sep (next :: fields)) = false).
  by rewrite !LoggerExtras.has_newline_app, Hfield, Hsep, IH.
Qed.

Lemma createLogLine_shape item :
  has_newline (token opts) = false ->
  Forall (fun field => has_newline field = false) item ->
  exists rest,
    createLogLine item opts = (token opts +:+ rest) +:+ newline
    /\ has_newline (token opts +:+ rest) = false.
Proof.
  intros Htoken Hitem. unfold createLogLine. destruct (usequotes opts).
  - exists (dquote +:+ String.concat (dquote +:+ " " +:+ dquote) item +:+ dquote).
    split; [by rewrite !LoggerExtras.string_app_assoc|].
    rewrite !LoggerExtras.has_newline_app, Htoken.
    by rewrite has_newline_concat.
  - exists (String.concat " " item).
    split; [by rewrite !LoggerExtras.string_app_assoc|].
    rewrite LoggerExtras.has_newline_app, Htoken. by rewrite has_newline_concat.
Qed.

(** X17: one entry is one line. When neither the token nor a field holds a
    newline, the log line of an entry, with or without quotes, is the token
    followed by text without newline and then one newline, its last
    character. *)
Theorem log_line_is_one_line (item : list string) :
  has_newline (token opts) = false ->
  Forall (fun field => has_newline field = false) item ->
  exists rest,
    createLogLine item opts = (token opts +:+ rest) +:+ newline
    /\ has_newline (token opts +:+ rest) = false.
Proof. apply createLogLine_shape. Qed.

End Extras.

(** ** The statements at concrete transports *)

Lemma closing_phase_stays_set_witness :
  closingPhase
    (Transport.run plain_options reliable_write reliable_end
       [Channel OnConnect; CallConsume ["b"]; CallEnd]
       (Transport.run plain_options reliable_write reliable_end
          [CallConsume ["a"]; CallEnd] initial)) <> None.
Proof.
  pose proof (closing_phase_stays_set plain_options reliable_write reliable_end
                (Transport.run plain_options reliable_write reliable_end
                   [CallConsume ["a"]; CallEnd] initial)
                [Channel OnConnect; CallConsume ["b"]; CallEnd]) as Hthm.
  cbv zeta in Hthm. destruct Hthm as (Hset & _); [discriminate|]. exact Hset.
Defined.

Lemma closed_transport_is_inert_witness :
  queue
    (Transport.run plain_options (write_fails_on (createLogLine ["a"] plain_options) (Error "EPIPE"))
       reliable_end [Channel OnConnect; CallConsume ["b"]; CallEnd]
       (Transport.run plain_options
          (write_fails_on (createLogLine ["a"] plain_options) (Error "EPIPE")) reliable_end
          [CallConsume ["a"]; CallEnd; Channel OnConnect] initial)) =
  [["a"]].
Proof.
  pose proof (closed_transport_is_inert plain_options
                (write_fails_on (createLogLine ["a"] plain_options) (Error "EPIPE")) reliable_end
                (Transport.run plain_options
                   (write_fails_on (createLogLine ["a"] plain_options) (Error "EPIPE"))
                   reliable_end [CallConsume ["a"]; CallEnd; Channel OnConnect] initial)
                [Channel OnConnect; CallConsume ["b"]; CallEnd]
                (ex_intro _ [CallConsume ["a"]; CallEnd; Channel OnConnect] eq_refl)
                eq_refl) as Hthm.
  cbv zeta in Hthm. destruct Hthm as (_ & _ & _ & Hqueue & _). exact Hqueue.
Defined.

Lemma no_channel_is_replaced_witness :
  socket (Transport.run plain_options reliable_write reliable_end
            [CallConsume ["a"]; Channel OnClose] initial) = None.
Proof.
  apply (proj2 (no_channel_is_replaced plain_options reliable_write reliable_end
                  (Transport.run plain_options reliable_write reliable_end
                     [CallConsume ["a"]; Channel OnClose] initial)
                  ["b"]
                  (ex_intro _ [CallConsume ["a"]; Channel OnClose] eq_refl))).
  vm_compute. discriminate.
Defined.

Lemma connected_transport_has_empty_queue_witness :
  queue (Transport.run plain_options reliable_write reliable_end
           [CallConsume ["a"]; CallConsume ["b"]; Channel OnConnect] initial) = [].
Proof.
  apply (connected_transport_has_empty_queue plain_options reliable_write reliable_end
           (Transport.run plain_options reliable_write reliable_end
              [CallConsume ["a"]; CallConsume ["b"]; Channel OnConnect] initial)).
  - by exists [CallConsume ["a"]; CallConsume ["b"]; Channel OnConnect].
  - reflexivity.
  - discriminate.
Defined.

Lemma consume_while_connected_writes_at_once_witness :
  write_calls
    (trace (Transport.consume plain_options reliable_write reliable_end ["b"]
              (Transport.run plain_options reliable_write reliable_end
                 [CallConsume ["a"]; Channel OnConnect] initial)).1) =
  write_calls
    (trace (Transport.run plain_options reliable_write reliable_end
              [CallConsume ["a"]; Channel OnConnect] initial))
  ++ [createLogLine ["b"] plain_options].
Proof.
  pose proof (consume_while_connected_writes_at_once plain_options reliable_write reliable_end
                (Transport.run plain_options reliable_write reliable_end
                   [CallConsume ["a"]; Channel OnConnect] initial)
                {| ch_secure := false; ch_port := DEFAULT_LE_PORT; ch_host := DEFAULT_LE_HOST |}
                ["b"]
                (ex_intro _ [CallConsume ["a"]; Channel OnConnect] eq_refl)
                eq_refl eq_refl eq_refl) as Hthm.
  cbv zeta in Hthm. destruct Hthm as (_ & Hwrites & _). exact Hwrites.
Defined.

Lemma log_line_is_one_line_witness :
  exists rest,
    createLogLine ["2015-05-17T15:26:17.231Z"; "info"; "t1"] plain_options =
      (token plain_options +:+ rest) +:+ newline
    /\ has_newline (token plain_options +:+ rest) = false.
Proof.
  apply (log_line_is_one_line plain_options ["2015-05-17T15:26:17.231Z"; "info"; "t1"]).
  - reflexivity.
  - repeat constructor.
Defined.

End TransportExtras.

(** * More properties of the two components together *)

Module WiringExtras.

Import Wiring.

Section Extras.

Variable JSON_stringify : value -> string.
Variable stack : nat.
Variable lopts : Logger.options.
Variable topts : Transport.options.
Variable write_throws : list Transport.event -> string -> option error.
Variable end_throws : list Transport.event -> option error.

Abbreviation wired := (LogentriesTransport topts write_throws end_throws).
Abbreviation log := (@Logger.log _ wired JSON_stringify stack lopts).
Abbreviation entry := (Logger.entry JSON_stringify lopts).

(** X18: a logger on its default transport, with the emitter's [emit] in
    place. A call of [log] that passes the filter and whose entry can be
    made returns. While no close was asked for, the entry is taken by the
    transport (its line joins the lines sent or queued, at the end) and the
    logger notifies nothing itself; once a close was asked for, the
    transport is left as it is and the logger notifies exactly one error,
    ["Transport is already closed"]. When the entry cannot be made (an
    invalid date, a timestamp that is no valid time), the call throws and
    the transport is not called. *)
Theorem log_on_default_transport (lg : Logger.logger Transport.transport)
    (argLevel : string) (s : Z) (data : value) (more : list string) (rt : nat -> Logger.runtime) :
  Logger.emit_overridden lopts = false ->
  Logger.levels lopts !! argLevel = Some s ->
  Logger.le (Logger.currentLevel lg) (Logger.Severity s) = true ->
  let result := log argLevel data more rt lg in
  match entry argLevel data more (rt 0%nat) with
  | Abrupt e => result = (Abrupt e, lg)
  | Normal args =>
      result.1 = Normal tt
      /\ Logger.handed (Logger.trace result.2) = Logger.handed (Logger.trace lg) ++ [args]
      /\ (Transport.closingPhase (Logger.transport lg) = None ->
          Logger.notified (Logger.trace result.2) = Logger.notified (Logger.trace lg)
          /\ Transport.ledger topts (Logger.transport result.2) =
               Transport.ledger topts (Logger.transport lg)
               ++ [Transport.createLogLine args topts])
      /\ (Transport.closingPhase (Logger.transport lg) <> None ->
          Logger.transport result.2 = Logger.transport lg
          /\ Logger.notified (Logger.trace result.2) =
               Logger.notified (Logger.trace lg) ++ [Error "Transport is already closed"])
  end.
Proof.
  intros Hplain Hs Hle. cbv zeta.
  destruct (entry argLevel data more (rt 0%nat)) as [args|e] eqn:Hentry; cycle 1.
  { unfold Logger.log.
    by rewrite (@LoggerFacts.log_throws _ wired JSON_stringify lopts stack 0 lg argLevel
                  (Logger.Severity s) data more rt e)
      by (done || by apply LoggerExtras.lookup_own). }
  destruct (@LoggerExtras.log_passed_trace _ wired JSON_stringify stack lopts lg argLevel s
              data more rt args Hs Hle Hentry) as (_ & _ & Hresult).
  destruct (Hresult Hplain) as (Hreturn & Htransport & Htrace). clear Hresult.
  cbn [Logger.consume LogentriesTransport] in Htransport, Htrace.
  rewrite Hreturn, Htransport, Htrace.
  rewrite LoggerFacts.handed_app, LoggerFacts.notified_app.
  split; [done|]. split.
  - cbn. by destruct (Transport.consume _ _ _ _ _).2.
  - split.
    + intros Hcl.
      pose proof (TransportExtras.ledger_consume topts write_throws end_throws
                    args (Logger.transport lg)) as Hledger.
      rewrite Hcl in Hledger. split; [|exact Hledger].
      unfold Transport.consume. rewrite Hcl.
      destruct (Transport.connectingPhase _) as [[| |]|]; cbn; by rewrite app_nil_r.
    + intros Hcl.
      rewrite (TransportFacts.consume_closing topts write_throws end_throws) by done.
      done.
Qed.

(** X19: a logged entry is one line on the wire when nothing but the logged
    value can hold a newline. When the token, the level name, the timestamp
    and the arguments of [log] after the second hold no newline, the line
    made from the entry of a [log] call is the token followed by text
    without newline and one final newline, whatever the logged value is. *)
Theorem logged_entry_is_one_line (argLevel : string) (data : value) (more : list string)
    (rt : Logger.runtime) (args : list string) :
  has_newline (Transport.token topts) = false ->
  has_newline argLevel = false ->
  Forall (fun field => has_newline field = false) more ->
  (forall time, Logger.determineTimestampString lopts rt = Normal time ->
                has_newline time = false) ->
  entry argLevel data more rt = Normal args ->
  exists rest,
    Transport.createLogLine args topts = (Transport.token topts +:+ rest) +:+ Transport.newline
    /\ has_newline (Transport.token topts +:+ rest) = false.
Proof.
  intros Htoken Hlevel Hmore Htimestamp Hentry.
  apply TransportExtras.createLogLine_shape; [done|].
  unfold Logger.entry in Hentry.
  destruct (Logger.convert JSON_stringify lopts data) as [text|e] eqn:Hconvert; [|done].
  apply LoggerExtras.convert_one_line in Hconvert.
  destruct (Logger.timestamp lopts).
  - injection Hentry as <-. by repeat constructor.
  - destruct (Logger.determineTimestampString lopts rt) as [time|e]; [|done].
    injection Hentry as <-. constructor; [by apply Htimestamp|]. by repeat constructor.
  - destruct (Logger.determineTimestampString lopts rt) as [time|e]; [|done].
    injection Hentry as <-. constructor; [by apply Htimestamp|]. by repeat constructor.
Qed.

End Extras.

Lemma log_on_default_transport_witness :
  Logger.notified
    (Logger.trace
       (@Logger.log _ (LogentriesTransport Transport.plain_options
                         Transport.reliable_write Transport.reliable_end)
          (fun _ => "") 0 Logger.test_options "info" (Prim (Str "t2")) [] Logger.test_runtime
          (@Logger.run _ (LogentriesTransport Transport.plain_options
                            Transport.reliable_write Transport.reliable_end)
             (fun _ => "") 0 Logger.test_options
             [Logger.CallLog "info" (Prim (Str "t1")) [] Logger.test_runtime;
              Logger.CallEnd Logger.test_runtime]
             (Logger.create Transport.initial))).2) =
  [Error "Transport is already closed"].
Proof.
  pose proof (log_on_default_transport (fun _ => "") 0 Logger.test_options
                Transport.plain_options Transport.reliable_write Transport.reliable_end
                (@Logger.run _ (LogentriesTransport Transport.plain_options
                                  Transport.reliable_write Transport.reliable_end)
                   (fun _ => "") 0 Logger.test_options
                   [Logger.CallLog "info" (Prim (Str "t1")) [] Logger.test_runtime;
                    Logger.CallEnd Logger.test_runtime]
                   (Logger.create Transport.initial))
                "info" 1 (Prim (Str "t2")) [] Logger.test_runtime) as Hthm.
  cbv zeta in Hthm.
  destruct Hthm as (_ & _ & _ & Hclosed);
    [vm_compute; reflexivity|vm_compute; reflexivity|vm_compute; reflexivity|].
  destruct Hclosed as [_ Hnotified]; [vm_compute; discriminate|].
  exact Hnotified.
Defined.

Lemma logged_entry_is_one_line_witness :
  exists rest,
    Transport.createLogLine
      [Logger.FIX_TIMESTAMP_ISO_STRING; "info"; "x" +:+ line_separator +:+ "y"; "z"]
      Transport.plain_options =
      (Transport.token Transport.plain_options +:+ rest) +:+ Transport.newline
    /\ has_newline (Transport.token Transport.plain_options +:+ rest) = false.
Proof.
  apply (logged_entry_is_one_line (fun _ => "") Logger.test_options Transport.plain_options
           "info" (Prim (Str ("x" +:+ Transport.newline +:+ "y"))) ["z"]
           (Logger.test_runtime 0%nat)).
  - vm_compute. reflexivity.
  - vm_compute. reflexivity.
  - repeat constructor.
  - intros time [= <-]. vm_compute. reflexivity.
  - vm_compute. reflexivity.
Defined.

End WiringExtras.
